(** * concurrencpp: [source/threads/atomic_wait.cpp]

  A shallow embedding of the three back ends of the "wait on a value"
  primitive:

  - [AddressWait]: the [CRCPP_WIN_OS] branch (WaitOnAddress);
  - [Futex]: the [CRCPP_UNIX_OS] branch (futex syscall);
  - [Fallback]: the portable [atomic_wait_table] (the [#else] branch).

  Machine integers are [Z] with the wrap-around of every conversion written
  out.  The wait table is a pointer heap of [wait_context] objects and an
  array of buckets; member functions are computations in a small
  state-and-exception monad.  The definitions come first, then the
  vocabulary of the statements, the lemmas, and the properties of the
  three back ends, each with an instance on a concrete table. *)

From stdpp Require Import gmap list.
From Stdlib Require Import ZArith Lia.

Local Open Scope Z_scope.

(** ** Fixed-width integers (LP64 / LLP64 widths used by the back ends) *)

Module Int.

(** Value of a [w]-bit unsigned object holding [z] after conversion. *)
Definition to_unsigned (w : Z) (z : Z) : Z := z mod 2 ^ w.

(** Value of a [w]-bit two's complement object holding [z] after
    conversion. *)
Definition to_signed (w : Z) (z : Z) : Z :=
  let u := z mod 2 ^ w in
  if u <? 2 ^ (w - 1) then u else u - 2 ^ w.

(** [std::chrono::milliseconds::rep] is a signed 64-bit integer on the
    supported tool chains. *)
Definition is_ms_rep (z : Z) : Prop := - 2 ^ 63 <= z < 2 ^ 63.

(** [size_t] on the futex targets. *)
Definition is_size_t (z : Z) : Prop := 0 <= z < 2 ^ 64.

End Int.

(** ** Back end A: [WaitOnAddress] *)

Module AddressWait.

(** [DWORD] is a 32-bit unsigned integer. *)
Definition static_cast_DWORD (z : Z) : Z := Int.to_unsigned 32 z.

(** [INFINITE] of [Windows.h]. *)
Definition INFINITE : Z := 4294967295.

(** The arguments one call hands to the operating system. *)
Inductive os_call :=
| WaitOnAddress (Address : Z) (CompareValue : Z) (AddressSize : Z)
                (dwMilliseconds : Z)
| WakeByAddressSingle (Address : Z)
| WakeByAddressAll (Address : Z).

Definition sizeof_int32 : Z := 4.

Definition atomic_wait_native (atom : Z) (old : Z) : os_call :=
  WaitOnAddress atom old sizeof_int32 INFINITE.

(** [ms] is the value of [ms.count()]. *)
Definition atomic_wait_for_native (atom : Z) (old : Z) (ms : Z) : os_call :=
  WaitOnAddress atom old sizeof_int32 (static_cast_DWORD ms).

Definition atomic_notify_one_native (atom : Z) : os_call :=
  WakeByAddressSingle atom.

Definition atomic_notify_all_native (atom : Z) : os_call :=
  WakeByAddressAll atom.

(** The timeout argument of a call, when it has one. *)
Definition timeout_of (c : os_call) : option Z :=
  match c with
  | WaitOnAddress _ _ _ t => Some t
  | _ => None
  end.

End AddressWait.

(** ** Back end B: futex *)

Module Futex.

Record timespec := mk_timespec { tv_sec : Z; tv_nsec : Z }.

(** [time_t] and [long] are 64-bit signed, [size_t] is 64-bit unsigned. *)
Definition static_cast_time_t (z : Z) : Z := Int.to_signed 64 z.
Definition to_long (z : Z) : Z := Int.to_signed 64 z.
Definition size_t_mul (a b : Z) : Z := Int.to_unsigned 64 (a * b).

(** [ms] is a [size_t]; [/] and [%] are the unsigned operations. *)
Definition ms_to_time_spec (ms : Z) : timespec :=
  {| tv_sec := static_cast_time_t (ms / 1000);
     tv_nsec := to_long (size_t_mul (ms mod 1000) 1000000) |}.

Definition FUTEX_WAIT_PRIVATE : Z := 128.
Definition FUTEX_WAKE_PRIVATE : Z := 129.
Definition INT_MAX : Z := 2147483647.

(** The arguments of one [syscall(SYS_futex, addr, op, old, ts, nullptr, 0)]. *)
Record futex_call := mk_futex
  { fx_addr : Z; fx_op : Z; fx_val : Z; fx_ts : option timespec }.

Definition futex (addr op old : Z) (ts : option timespec) : futex_call :=
  mk_futex addr op old ts.

Definition atomic_wait_native (atom old : Z) : futex_call :=
  futex atom FUTEX_WAIT_PRIVATE old None.

(** [ms.count()] is converted to the [size_t] parameter. *)
Definition atomic_wait_for_native (atom old ms : Z) : futex_call :=
  let spec := ms_to_time_spec (Int.to_unsigned 64 ms) in
  futex atom FUTEX_WAIT_PRIVATE old (Some spec).

Definition atomic_notify_one_native (atom : Z) : futex_call :=
  futex atom FUTEX_WAKE_PRIVATE 1 None.

Definition atomic_notify_all_native (atom : Z) : futex_call :=
  futex atom FUTEX_WAKE_PRIVATE INT_MAX None.

End Futex.

(** ** The portable fallback: [atomic_wait_table] *)

(** One call of one thread is a computation on the shared state: the live
    [wait_context] objects, the bucket array of the singleton
    [atomic_wait_table::instance()], the bytes of the watched words, and the
    trace of what the calling thread did.  Every bucket operation runs under
    the bucket mutex, so the other threads act on the shared state only
    where the call releases the mutex, inside the condition-variable wait;
    what they do there, and which library calls fail, is given by an
    [environment]. *)

Module Fallback.

Local Open Scope nat_scope.

(** What the tool chain fixes: [std::hash<std::uintptr_t>] and the object
    representation of an [int32_t]. *)
Class platform := mk_platform
  { hasher : N → N;
    object_repr : Z → list Z;
    object_repr_size : ∀ old, length (object_repr old) = 4 }.

(** [struct wait_context].  Addresses of contexts are [positive]s, and
    [None] is [nullptr]; a watched address is its [std::uintptr_t] value.
    The condition variable [cv] is identified with the address of its
    context. *)
Record wait_context := mk_wait_context
  { storage_ptr : N;
    next : option positive;
    prev : option positive }.

(** [struct wait_table_bucket]; [lock] tells whether the mutex is held. *)
Record wait_table_bucket := mk_bucket
  { lock : bool;
    head : option positive }.

Inductive cv_status := no_timeout | timeout.

(** Why [cv.wait] returned, and how [cv.wait_for] ended
    ([clock_failure]: a timeout-related exception). *)
Inductive wake := notified | spurious.

Inductive timed_wake := woke (w : wake) | timed_out | clock_failure.

(** Effects of the calling thread, oldest first. *)
Inductive event :=
| ev_examine (c : positive)         (* cursor->storage_ptr == storage_ptr *)
| ev_cv_notify_all (c : positive)   (* cursor->cv.notify_all() *)
| ev_memcmp (s1 : N) (n : nat)      (* std::memcmp reads n bytes at s1 *)
| ev_cv_wait (c : positive) (w : wake)
| ev_cv_wait_for (c : positive) (ms : Z) (w : timed_wake).

Record state := mk_state
  { ctxs : gmap positive wait_context;        (* live wait_context objects *)
    m_wait_table : list wait_table_bucket;
    mem : N → Z;                              (* bytes of the watched words *)
    trace : list event }.

Definition with_ctxs (h : gmap positive wait_context) (σ : state) : state :=
  mk_state h (m_wait_table σ) (mem σ) (trace σ).

Definition with_table (t : list wait_table_bucket) (σ : state) : state :=
  mk_state (ctxs σ) t (mem σ) (trace σ).

Definition with_mem (m : N → Z) (σ : state) : state :=
  mk_state (ctxs σ) (m_wait_table σ) m (trace σ).

Definition with_trace (tr : list event) (σ : state) : state :=
  mk_state (ctxs σ) (m_wait_table σ) (mem σ) tr.

Inductive exn := system_error | timeout_exception.

(** Result of running a piece of code: normal completion, an exception in
    flight, or [Stuck] (undefined behaviour, a failed [assert],
    [std::terminate], a loop that does not end). *)
Inductive outcome (A : Type) :=
| Ret (a : A) (σ : state)
| Throw (e : exn) (σ : state)
| Stuck.
Arguments Ret {A} a σ.
Arguments Throw {A} e σ.
Arguments Stuck {A}.

Definition M (A : Type) : Type := state → outcome A.

Definition ret {A} (a : A) : M A := λ σ, Ret a σ.

Definition bind {A B} (m : M A) (k : A → M B) : M B :=
  λ σ, match m σ with
       | Ret a σ' => k a σ'
       | Throw e σ' => Throw e σ'
       | Stuck => Stuck
       end.

#[export] Instance M_ret : MRet M := @ret.
#[export] Instance M_bind : MBind M := λ A B k m, bind m k.

Definition throw {A} (e : exn) : M A := λ σ, Throw e σ.

Definition stuck {A} : M A := λ _, Stuck.

(** Destructor of an automatic object: runs when [body] leaves the scope,
    normally or by an exception; an exception leaving a destructor calls
    [std::terminate]. *)
Definition at_scope_exit {A} (dtor : M unit) (body : M A) : M A :=
  λ σ, match body σ with
       | Ret a σ' =>
           match dtor σ' with Ret _ σ'' => Ret a σ'' | _ => Stuck end
       | Throw e σ' =>
           match dtor σ' with Ret _ σ'' => Throw e σ'' | _ => Stuck end
       | Stuck => Stuck
       end.

(** [try { body } catch (...) {}] *)
Definition try_catch_all (body : M unit) : M unit :=
  λ σ, match body σ with
       | Throw _ σ' => Ret tt σ'
       | r => r
       end.

Definition assert (c : bool) : M unit := if c then ret tt else stuck.

Definition log (e : event) : M unit :=
  λ σ, Ret tt (with_trace (trace σ ++ [e]) σ).

(** *** Object access *)

Definition get_ctx (c : positive) : M wait_context :=
  λ σ, match ctxs σ !! c with Some x => Ret x σ | None => Stuck end.

Definition put_ctx (c : positive) (x : wait_context) : M unit :=
  λ σ, match ctxs σ !! c with
       | Some _ => Ret tt (with_ctxs (<[c := x]> (ctxs σ)) σ)
       | None => Stuck
       end.

Definition upd_next (p : option positive) (x : wait_context) : wait_context :=
  mk_wait_context (storage_ptr x) p (prev x).

Definition upd_prev (p : option positive) (x : wait_context) : wait_context :=
  mk_wait_context (storage_ptr x) (next x) p.

(** [c->next = p] *)
Definition set_next (c : positive) (p : option positive) : M unit :=
  x ← get_ctx c; put_ctx c (upd_next p x).

(** [c->prev = p] *)
Definition set_prev (c : positive) (p : option positive) : M unit :=
  x ← get_ctx c; put_ctx c (upd_prev p x).

Definition get_bucket (b : nat) : M wait_table_bucket :=
  λ σ, match m_wait_table σ !! b with
       | Some bk => Ret bk σ
       | None => Stuck
       end.

Definition put_bucket (b : nat) (bk : wait_table_bucket) : M unit :=
  λ σ, match m_wait_table σ !! b with
       | Some _ => Ret tt (with_table (<[b := bk]> (m_wait_table σ)) σ)
       | None => Stuck
       end.

Definition get_head (b : nat) : M (option positive) :=
  bk ← get_bucket b; mret (head bk).

Definition set_head (b : nat) (p : option positive) : M unit :=
  bk ← get_bucket b; put_bucket b (mk_bucket (lock bk) p).

Definition ptr_eqb (p q : option positive) : bool := bool_decide (p = q).

(** *** [wait_table_bucket] *)

Definition push_front_wait_ctx (b : nat) (ctx : positive) : M unit :=
  x ← get_ctx ctx;
  assert (ptr_eqb (next x) None);;
  assert (ptr_eqb (prev x) None);;
  hd ← get_head b;
  set_next ctx hd;;
  match hd with
  | Some h => set_prev h (Some ctx)
  | None => mret tt
  end;;
  set_head b (Some ctx).

Definition remove_wait_ctx (b : nat) (ctx : positive) : M unit :=
  hd ← get_head b;
  assert (negb (ptr_eqb hd None));;
  (if ptr_eqb hd (Some ctx)
   then x ← get_ctx ctx; set_head b (next x)
   else mret tt);;
  x ← get_ctx ctx;
  match next x with
  | Some n => set_prev n (prev x)
  | None => mret tt
  end;;
  x ← get_ctx ctx;
  match prev x with
  | Some p => set_next p (next x)
  | None => mret tt
  end.

(** *** Mutex, condition variable, memory *)

(** A critical section starts with the mutex free: locking a held mutex
    is the thread waiting for it, which [Stuck] stands for here. *)
Definition mutex_lock (b : nat) : M unit :=
  bk ← get_bucket b;
  if lock bk then stuck else put_bucket b (mk_bucket true (head bk)).

Definition mutex_unlock (b : nat) : M unit :=
  bk ← get_bucket b;
  if lock bk then put_bucket b (mk_bucket false (head bk)) else stuck.

(** [std::unique_lock<std::mutex> lock(bucket.lock)]; locking may throw
    [std::system_error]. *)
Definition unique_lock (fails : bool) (b : nat) : M unit :=
  if fails then throw system_error else mutex_lock b.

Definition load (σ : state) (a : N) (n : nat) : list Z :=
  map (λ i, mem σ (a + N.of_nat i)%N) (seq 0 n).

Fixpoint memcmp_bytes (l r : list Z) : Z :=
  match l, r with
  | x :: l', y :: r' => if (x =? y)%Z then memcmp_bytes l' r' else (x - y)%Z
  | _, _ => 0%Z
  end.

(** [std::memcmp(s1, s2, n)], where [s2] stands for the bytes its pointer
    refers to. *)
Definition memcmp (s1 : N) (s2 : list Z) (n : nat) : M Z :=
  λ σ, if decide (n ≤ length s2)
       then Ret (memcmp_bytes (load σ s1 n) (take n s2))
                (with_trace (trace σ ++ [ev_memcmp s1 n]) σ)
       else Stuck.

(** *** Table lookup *)

Definition k_wait_table_size : N := 257.

Definition get_bucket_for `{P : platform} (sptr : N) : nat :=
  let address := sptr in
  let index := (hasher address mod k_wait_table_size)%N in
  N.to_nat index.

(** *** [scoped_wait_context] *)

(** Constructor of the [wait_context] base at address [this]; building the
    condition variable may throw [std::system_error]. *)
Definition new_wait_context (fails : bool) (this : positive) (sptr : N)
  : M positive :=
  λ σ, if fails then Throw system_error σ
       else match ctxs σ !! this with
            | Some _ => Stuck
            | None =>
                let ctx := mk_wait_context sptr None None in
                Ret this (with_ctxs (<[this := ctx]> (ctxs σ)) σ)
            end.

Definition end_of_lifetime (this : positive) : M unit :=
  λ σ, Ret tt (with_ctxs (delete this (ctxs σ)) σ).

Definition scoped_wait_context (fails : bool) (this : positive)
    (parent_bucket : nat) (sptr : N) : M positive :=
  new_wait_context fails this sptr;;
  push_front_wait_ctx parent_bucket this;;
  mret this.

Definition destroy_scoped_wait_context (parent_bucket : nat) (this : positive)
  : M unit :=
  remove_wait_ctx parent_bucket this;;
  end_of_lifetime this.

(** *** [notify_one], [notify_all] *)

(** The [for] loops over the bucket list.  [fuel] bounds the number of
    iterations; running out of it is a loop that does not end. *)
Fixpoint notify_one_loop (fuel : nat) (sptr : N) (cursor : option positive)
  : M unit :=
  match cursor with
  | None => mret tt
  | Some c =>
      match fuel with
      | 0 => stuck
      | S fuel' =>
          x ← get_ctx c;
          log (ev_examine c);;
          if (storage_ptr x =? sptr)%N
          then log (ev_cv_notify_all c)
          else notify_one_loop fuel' sptr (next x)
      end
  end.

Fixpoint notify_all_loop (fuel : nat) (sptr : N) (cursor : option positive)
  : M unit :=
  match cursor with
  | None => mret tt
  | Some c =>
      match fuel with
      | 0 => stuck
      | S fuel' =>
          x ← get_ctx c;
          log (ev_examine c);;
          (if (storage_ptr x =? sptr)%N
           then log (ev_cv_notify_all c)
           else mret tt);;
          notify_all_loop fuel' sptr (next x)
      end
  end.

(** A list without a cycle has at most as many nodes as there are live
    contexts. *)
Definition scan_bound : M nat := λ σ, Ret (size (ctxs σ)) σ.

(** What the rest of the program does during one call. *)
Inductive env_op :=
| other_registers (c : positive) (a : N)
| other_unregisters (c : positive)
| other_notify_one (a : N)
| other_notify_all (a : N)
| other_stores (a : N) (v : Z).

Record environment := mk_environment
  { lock_fails : bool;            (* the mutex cannot be locked *)
    cv_ctor_fails : bool;         (* the condition variable cannot be built *)
    context_at : positive;        (* address of the automatic [context] *)
    interference : list env_op;   (* other threads during the sleep *)
    woken_by : wake;              (* end of [cv.wait] *)
    timed_woken_by : timed_wake   (* end of [cv.wait_for] *) }.

Definition notify_one `{P : platform} (ω : environment) (sptr : N) : M unit :=
  let bucket := get_bucket_for sptr in
  unique_lock (lock_fails ω) bucket;;
  at_scope_exit (mutex_unlock bucket)
    (hd ← get_head bucket;
     fuel ← scan_bound;
     notify_one_loop fuel sptr hd).

Definition notify_all `{P : platform} (ω : environment) (sptr : N) : M unit :=
  let bucket := get_bucket_for sptr in
  unique_lock (lock_fails ω) bucket;;
  at_scope_exit (mutex_unlock bucket)
    (hd ← get_head bucket;
     fuel ← scan_bound;
     notify_all_loop fuel sptr hd).

(** *** Other threads *)

Definition calm : environment :=
  mk_environment false false 1%positive [] spurious (woke spurious).

(** Code run by another thread leaves no event in the caller's trace. *)
Definition by_other_thread {A} (m : M A) : M A :=
  λ σ, match m σ with
       | Ret a σ' => Ret a (with_trace (trace σ) σ')
       | Throw e σ' => Throw e (with_trace (trace σ) σ')
       | Stuck => Stuck
       end.

Definition store (a : N) (v : Z) : M unit :=
  λ σ, Ret tt (with_mem (λ a', if (a' =? a)%N then v else mem σ a') σ).

(** One critical section of another thread: the first half of its [wait]
    (up to the release of the mutex inside the condition-variable wait), the
    second half (from the wake to the return), a notify, or a store to a
    watched word. *)
Definition run_env_op `{P : platform} (op : env_op) : M unit :=
  by_other_thread
    match op with
    | other_registers c a =>
        let bucket := get_bucket_for a in
        mutex_lock bucket;;
        scoped_wait_context false c bucket a;;
        mutex_unlock bucket
    | other_unregisters c =>
        x ← get_ctx c;
        let bucket := get_bucket_for (storage_ptr x) in
        mutex_lock bucket;;
        destroy_scoped_wait_context bucket c;;
        mutex_unlock bucket
    | other_notify_one a => notify_one calm a
    | other_notify_all a => notify_all calm a
    | other_stores a v => store a v
    end.

Fixpoint interfere `{P : platform} (ops : list env_op) : M unit :=
  match ops with
  | [] => mret tt
  | op :: ops' => run_env_op op;; interfere ops'
  end.

(** [context.cv.wait(lock)]: the mutex is released while the thread sleeps
    and held again when the call returns. *)
Definition cv_wait `{P : platform} (ω : environment) (b : nat) (c : positive)
  : M unit :=
  log (ev_cv_wait c (woken_by ω));;
  mutex_unlock b;;
  interfere (interference ω);;
  mutex_lock b.

(** [context.cv.wait_for(lock, timeout_ms)] *)
Definition cv_wait_for `{P : platform} (ω : environment) (b : nat)
    (c : positive) (timeout_ms : Z) : M cv_status :=
  log (ev_cv_wait_for c timeout_ms (timed_woken_by ω));;
  mutex_unlock b;;
  interfere (interference ω);;
  mutex_lock b;;
  match timed_woken_by ω with
  | woke _ => mret no_timeout
  | timed_out => mret timeout
  | clock_failure => throw timeout_exception
  end.

(** *** [wait] *)

(** [comparand] stands for the [size] bytes its pointer refers to. *)
Definition wait `{P : platform} (ω : environment) (sptr : N)
    (comparand : list Z) (size : nat) : M unit :=
  let bucket := get_bucket_for sptr in
  unique_lock (lock_fails ω) bucket;;
  at_scope_exit (mutex_unlock bucket)
    (context ← scoped_wait_context (cv_ctor_fails ω) (context_at ω)
                 bucket sptr;
     at_scope_exit (destroy_scoped_wait_context bucket context)
       (d ← memcmp sptr comparand size;
        if negb (d =? 0)%Z
        then mret tt
        else cv_wait ω bucket context)).

(** The overload of [wait] with a timeout. *)
Definition wait_for `{P : platform} (ω : environment) (sptr : N)
    (comparand : list Z) (size : nat) (timeout_ms : Z) : M unit :=
  let bucket := get_bucket_for sptr in
  unique_lock (lock_fails ω) bucket;;
  at_scope_exit (mutex_unlock bucket)
    (context ← scoped_wait_context (cv_ctor_fails ω) (context_at ω)
                 bucket sptr;
     at_scope_exit (destroy_scoped_wait_context bucket context)
       (d ← memcmp sptr comparand size;
        if negb (d =? 0)%Z
        then mret tt
        else cv_wait_for ω bucket context timeout_ms;; mret tt)).

(** *** The four entry points *)

Definition sizeof_old : nat := 4.

Definition atomic_wait_native `{P : platform} (ω : environment) (atom : N)
    (old : Z) : M unit :=
  try_catch_all (wait ω atom (object_repr old) sizeof_old).

Definition atomic_wait_for_native `{P : platform} (ω : environment) (atom : N)
    (old : Z) (ms : Z) : M unit :=
  try_catch_all (wait_for ω atom (object_repr old) sizeof_old ms).

Definition atomic_notify_one_native `{P : platform} (ω : environment)
    (atom : N) : M unit :=
  try_catch_all (notify_one ω atom).

Definition atomic_notify_all_native `{P : platform} (ω : environment)
    (atom : N) : M unit :=
  try_catch_all (notify_all ω atom).

End Fallback.

(** * Specification vocabulary *)

Import Fallback.

Local Open Scope nat_scope.

(** [dll h prv cur L]: following [next] from [cur] in the heap [h] visits
    exactly the contexts of [L], each watching the address paired with it,
    the [prev] link of each pointing to its predecessor ([prv] for the
    first) and the last [next] being null. *)
Fixpoint dll (h : gmap positive wait_context) (prv cur : option positive)
    (L : list (positive * N)) : Prop :=
  match L with
  | [] => cur = None
  | ca :: L' =>
      cur = Some ca.1 ∧
      ∃ x, h !! ca.1 = Some x ∧ storage_ptr x = ca.2 ∧ prev x = prv ∧
           dll h (Some ca.1) (next x) L'
  end.

(** The table invariant.  [Ls] gives, bucket by bucket, the contexts linked
    into the bucket, front first; [held] is the bucket whose mutex the
    running thread holds, if any.  Every bucket list is well formed, every
    context sits in the bucket of the address it watches, and every live
    context is linked. *)
Record table_inv `{P : platform} (held : option nat) (σ : state)
    (Ls : list (list (positive * N))) : Prop := mk_table_inv
  { inv_size : length (m_wait_table σ) = N.to_nat k_wait_table_size;
    inv_lists : length Ls = N.to_nat k_wait_table_size;
    inv_bucket : ∀ i bk L,
      m_wait_table σ !! i = Some bk → Ls !! i = Some L →
      lock bk = bool_decide (held = Some i) ∧ dll (ctxs σ) None (head bk) L;
    inv_home : ∀ i L ca,
      Ls !! i = Some L → ca ∈ L → get_bucket_for ca.2 = i;
    inv_live : ∀ c,
      is_Some (ctxs σ !! c) → ∃ i L, Ls !! i = Some L ∧ c ∈ L.*1 }.

(** [c] is linked into bucket [b]: it is reached from the head of [b]. *)
Definition linked_in (σ : state) (b : nat) (c : positive) : Prop :=
  ∃ bk L, m_wait_table σ !! b = Some bk ∧
          dll (ctxs σ) None (head bk) L ∧ c ∈ L.*1.

(** Contexts whose condition variable a trace signals, and contexts a scan
    examines, in order. *)
Definition signalled (tr : list event) : list positive :=
  omap (λ e, match e with ev_cv_notify_all c => Some c | _ => None end) tr.

Definition examined (tr : list event) : list positive :=
  omap (λ e, match e with ev_examine c => Some c | _ => None end) tr.

(** The events that are a wait on a condition variable. *)
Definition is_cv_wait (e : event) : bool :=
  match e with ev_cv_wait _ _ | ev_cv_wait_for _ _ _ => true | _ => false end.

(** Pure effect on the heap of [push_front_wait_ctx] and of
    [remove_wait_ctx]. *)
Definition link_front (h : gmap positive wait_context) (c : positive)
    (hd : option positive) : gmap positive wait_context :=
  let h1 := alter (upd_next hd) c h in
  match hd with
  | Some n => alter (upd_prev (Some c)) n h1
  | None => h1
  end.

Definition unlink (h : gmap positive wait_context) (c : positive)
  : gmap positive wait_context :=
  match h !! c with
  | None => h
  | Some x =>
      let h1 := match next x with
                | Some n => alter (upd_prev (prev x)) n h
                | None => h
                end in
      match prev x with
      | Some p => alter (upd_next (next x)) p h1
      | None => h1
      end
  end.

(** The discipline the other threads follow: a context is registered at a
    free address and a thread unregisters a live context other than
    [me]. *)
Fixpoint env_ok (me : option positive) (live : gset positive)
    (ops : list env_op) : Prop :=
  match ops with
  | [] => True
  | other_registers c a :: ops' =>
      (c ∉ live) ∧ env_ok me ({[c]} ∪ live) ops'
  | other_unregisters c :: ops' =>
      c ∈ live ∧ me ≠ Some c ∧ env_ok me (live ∖ {[c]}) ops'
  | _ :: ops' => env_ok me live ops'
  end.

(** The bucket lists after the other threads have run. *)
Definition abs_op `{P : platform} (op : env_op)
    (Ls : list (list (positive * N))) : list (list (positive * N)) :=
  match op with
  | other_registers c a => alter (cons (c, a)) (get_bucket_for a) Ls
  | other_unregisters c => filter (λ ca, ca.1 ≠ c) <$> Ls
  | _ => Ls
  end.

Definition abs_run `{P : platform} (ops : list env_op)
    (Ls : list (list (positive * N))) : list (list (positive * N)) :=
  foldl (λ Ls op, abs_op op Ls) Ls ops.

(** [run m σ Q E]: from [σ], [m] returns [a] in a state satisfying [Q a] or
    throws [e] in a state satisfying [E e]; it does not get stuck. *)
Definition run {A} (m : M A) (σ : state) (Q : A → state → Prop)
    (E : exn → state → Prop) : Prop :=
  match m σ with
  | Ret a σ' => Q a σ'
  | Throw e σ' => E e σ'
  | Stuck => False
  end.

Definition no_throw : exn → state → Prop := λ _ _, False.

(** The events of the two scans over a bucket list [L]. *)
Fixpoint one_events (a : N) (L : list (positive * N)) : list event :=
  match L with
  | [] => []
  | ca :: L' =>
      ev_examine ca.1 ::
      (if (ca.2 =? a)%N then [ev_cv_notify_all ca.1] else one_events a L')
  end.

Fixpoint all_events (a : N) (L : list (positive * N)) : list event :=
  match L with
  | [] => []
  | ca :: L' =>
      ev_examine ca.1 ::
      (if (ca.2 =? a)%N then [ev_cv_notify_all ca.1] else []) ++
      all_events a L'
  end.

(** The bucket lists when a call that slept returns: the context was
    registered, the other threads ran, the context was unregistered. *)
Definition lists_after_wait `{P : platform} (ω : environment) (a : N)
    (Ls : list (list (positive * N))) : list (list (positive * N)) :=
  abs_run (other_registers (context_at ω) a :: interference ω ++
           [other_unregisters (context_at ω)]) Ls.

(** How the bounded [wait] ends after a sleep that ended as [w] says: a
    timeout-related exception leaves [wait_for], any wake or the timeout
    makes it return. *)
Definition ends_as (w : timed_wake) (σ' : state) : outcome unit :=
  match w with
  | clock_failure => Throw timeout_exception σ'
  | _ => Ret tt σ'
  end.





(** A tool chain for the examples: the identity hash of libstdc++ and a
    little-endian [int32_t]. *)
Definition le_bytes (old : Z) : list Z :=
  let u := (old mod 2 ^ 32)%Z in
  [(u mod 256)%Z; (u / 256 mod 256)%Z; (u / 65536 mod 256)%Z;
   (u / 16777216 mod 256)%Z].

Definition demo_platform : platform :=
  mk_platform (λ a, a) le_bytes (λ _, eq_refl).

(** The table before any call, every watched byte being [0]. *)
Definition empty_state : state :=
  mk_state ∅ (replicate (N.to_nat k_wait_table_size) (mk_bucket false None))
    (λ _, 0%Z) [].

Definition empty_lists : list (list (positive * N)) :=
  replicate (N.to_nat k_wait_table_size) [].

(** Examples: a call whose context lives at address 5 and during whose
    sleep another thread registers a context for the same word, stores to
    the word, notifies and leaves; a table with three registered contexts,
    two of them for the word at 100 and one for the word at 357, which falls
    into the same bucket. *)
Definition demo_env : environment :=
  mk_environment false false 5%positive
    [other_registers 7 100; other_stores 100 1; other_notify_all 100;
     other_unregisters 7]
    notified timed_out.

Definition demo_history : list env_op :=
  [other_registers 7 100; other_registers 8 357; other_registers 9 100].

Definition populated_state : state :=
  match interfere (P := demo_platform) demo_history empty_state with
  | Ret _ σ => σ
  | _ => empty_state
  end.

Definition populated_lists : list (list (positive * N)) :=
  abs_run (P := demo_platform) demo_history empty_lists.

(** More examples, on the table with three contexts: the state in which
    the constructor of [wait_context] has built a fourth context at address
    5 and not linked it yet; a call whose context lives at address 5 and
    during whose sleep other threads register a context in front of it,
    store to the word, notify, and unregister the context behind it. *)
Definition populated_unlinked_state : state :=
  with_ctxs (<[5%positive := mk_wait_context 100 None None]>
               (ctxs populated_state)) populated_state.

Definition busy_env : environment :=
  mk_environment false false 5%positive
    [other_registers 6 100; other_stores 100 1; other_notify_all 100;
     other_unregisters 9]
    spurious (woke notified).

(** * Proofs *)

(** ** Running code *)

Section run_logic.
Context {A B : Type}.

Lemma run_ret (a : A) σ Q E : Q a σ → run (mret a) σ Q E.
Proof. done. Qed.

Lemma run_bind (m : M A) (k : A → M B) σ Q E :
  run m σ (λ a σ', run (k a) σ' Q E) E → run (m ≫= k) σ Q E.
Proof.
  unfold run, mbind, M_bind, bind. by destruct (m σ).
Qed.

Lemma run_mono (m : M A) σ (Q Q' : A → state → Prop)
    (E E' : exn → state → Prop) :
  run m σ Q E → (∀ a σ', Q a σ' → Q' a σ') → (∀ e σ', E e σ' → E' e σ') →
  run m σ Q' E'.
Proof. unfold run. destruct (m σ); eauto. Qed.

Lemma run_scope_exit (dtor : M unit) (body : M A) σ Q E :
  run body σ (λ a σ', run dtor σ' (λ _, Q a) no_throw)
             (λ e σ', run dtor σ' (λ _, E e) no_throw) →
  run (at_scope_exit dtor body) σ Q E.
Proof.
  unfold run, at_scope_exit.
  destruct (body σ) as [a σ'|e σ'|]; [| |done].
  - by destruct (dtor σ').
  - by destruct (dtor σ').
Qed.

Lemma run_eq (m : M A) σ a σ' : m σ = Ret a σ' → ∀ Q E, Q a σ' → run m σ Q E.
Proof. unfold run. by intros ->. Qed.

Lemma run_returns (m : M A) σ Q :
  run m σ Q no_throw → ∃ a σ', m σ = Ret a σ' ∧ Q a σ'.
Proof. unfold run, no_throw. destruct (m σ); [eauto|done|done]. Qed.
End run_logic.

Lemma run_get_ctx σ c x Q E :
  ctxs σ !! c = Some x → Q x σ → run (get_ctx c) σ Q E.
Proof. unfold run, get_ctx. by intros ->. Qed.

Lemma run_set_next σ c x p Q E :
  ctxs σ !! c = Some x →
  Q tt (with_ctxs (alter (upd_next p) c (ctxs σ)) σ) →
  run (set_next c p) σ Q E.
Proof.
  intros Hc HQ. unfold set_next. apply run_bind, (run_get_ctx _ _ x); [done|].
  unfold run, put_ctx. rewrite Hc. by rewrite (alter_alt_Some _ _ _ _ Hc) in HQ.
Qed.

Lemma run_set_prev σ c x p Q E :
  ctxs σ !! c = Some x →
  Q tt (with_ctxs (alter (upd_prev p) c (ctxs σ)) σ) →
  run (set_prev c p) σ Q E.
Proof.
  intros Hc HQ. unfold set_prev. apply run_bind, (run_get_ctx _ _ x); [done|].
  unfold run, put_ctx. rewrite Hc. by rewrite (alter_alt_Some _ _ _ _ Hc) in HQ.
Qed.

Lemma run_get_head σ b bk Q E :
  m_wait_table σ !! b = Some bk → Q (head bk) σ → run (get_head b) σ Q E.
Proof.
  unfold run, get_head, mbind, M_bind, bind, get_bucket. intros Hb HQ.
  by rewrite Hb.
Qed.

Lemma run_set_head σ b bk p Q E :
  m_wait_table σ !! b = Some bk →
  Q tt (with_table (<[b := mk_bucket (lock bk) p]> (m_wait_table σ)) σ) →
  run (set_head b p) σ Q E.
Proof.
  unfold run, set_head, mbind, M_bind, bind, get_bucket, put_bucket.
  intros Hb HQ. rewrite Hb. simpl. by rewrite Hb.
Qed.

Lemma run_assert σ (c : bool) Q E : c = true → Q tt σ → run (assert c) σ Q E.
Proof. by intros ->. Qed.

Lemma run_log σ e Q E :
  Q tt (with_trace (trace σ ++ [e]) σ) → run (log e) σ Q E.
Proof. done. Qed.

Lemma run_mutex_lock σ b bk Q E :
  m_wait_table σ !! b = Some bk → lock bk = false →
  Q tt (with_table (<[b := mk_bucket true (head bk)]> (m_wait_table σ)) σ) →
  run (mutex_lock b) σ Q E.
Proof.
  unfold run, mutex_lock, mbind, M_bind, bind, get_bucket, put_bucket.
  intros Hb Hl HQ. rewrite Hb. simpl. rewrite Hl. simpl. by rewrite Hb.
Qed.

Lemma run_mutex_unlock σ b bk Q E :
  m_wait_table σ !! b = Some bk → lock bk = true →
  Q tt (with_table (<[b := mk_bucket false (head bk)]> (m_wait_table σ)) σ) →
  run (mutex_unlock b) σ Q E.
Proof.
  unfold run, mutex_unlock, mbind, M_bind, bind, get_bucket, put_bucket.
  intros Hb Hl HQ. rewrite Hb. simpl. rewrite Hl. simpl. by rewrite Hb.
Qed.

(** ** Well-formed lists *)

Lemma dll_nil_inv h prv L : dll h prv None L → L = [].
Proof. destruct L as [|[c a] L]; [done|]. by intros [? _]. Qed.

Lemma dll_cons_inv h prv c L :
  dll h prv (Some c) L →
  ∃ x L', L = (c, storage_ptr x) :: L' ∧ h !! c = Some x ∧ prev x = prv ∧
          dll h (Some c) (next x) L'.
Proof.
  destruct L as [|[c' a] L]; simpl; [done|].
  intros (Hc & x & Hx & Ha & Hp & Hd). simplify_eq. by exists x, L.
Qed.

Lemma dll_frame h h' prv cur L :
  dll h prv cur L → (∀ c, c ∈ L.*1 → h' !! c = h !! c) → dll h' prv cur L.
Proof.
  revert prv cur. induction L as [|[c a] L IH]; simpl; intros prv cur; [done|].
  intros (-> & x & Hx & Ha & Hp & Hd) Hf. split; [done|]. exists x.
  rewrite Hf by (by left). repeat split; try done.
  apply IH; [done|]. intros c' Hc'. apply Hf. by right.
Qed.

Lemma dll_lookup h prv cur L c a :
  dll h prv cur L → (c, a) ∈ L → ∃ x, h !! c = Some x ∧ storage_ptr x = a.
Proof.
  revert prv cur. induction L as [|[c' a'] L IH]; simpl; intros prv cur.
  - intros _ Hin. by apply elem_of_nil in Hin.
  - intros (-> & x & Hx & Ha & Hp & Hd) Hin.
    apply elem_of_cons in Hin as [Heq|Hin]; [simplify_eq; eauto|eauto].
Qed.

Lemma dll_live h prv cur L c : dll h prv cur L → c ∈ L.*1 → is_Some (h !! c).
Proof.
  intros Hd Hin. apply list_elem_of_fmap in Hin as ([c' a] & -> & Hin).
  destruct (dll_lookup _ _ _ _ _ _ Hd Hin) as (x & Hx & _). by exists x.
Qed.

Lemma dll_functional h p p' cur L1 L2 :
  dll h p cur L1 → dll h p' cur L2 → L1 = L2.
Proof.
  revert p p' cur L2. induction L1 as [|[c a] L1 IH]; simpl; intros p p' cur L2.
  - intros -> H2. symmetry. by eapply dll_nil_inv.
  - intros (-> & x & Hx & Ha & Hp & Hd) H2.
    apply dll_cons_inv in H2 as (x' & L2' & -> & Hx' & _ & Hd'). simplify_eq.
    f_equal. by eapply IH.
Qed.

Lemma dll_suffix h prv cur L c :
  dll h prv cur L → c ∈ L.*1 →
  ∃ p L2, dll h p (Some c) L2 ∧ length L2 ≤ length L.
Proof.
  revert prv cur. induction L as [|[c' a] L IH]; simpl; intros prv cur Hd Hin.
  - by apply elem_of_nil in Hin.
  - destruct Hd as (-> & x & Hx & Ha & Hp & Hd).
    apply elem_of_cons in Hin as [->|Hin].
    + exists prv, ((c', a) :: L). split; [|done]. simpl. eauto 10.
    + destruct (IH _ _ Hd Hin) as (p & L2 & H2 & Hlen). exists p, L2.
      split; [done|lia].
Qed.

Lemma dll_NoDup h prv cur L : dll h prv cur L → NoDup L.*1.
Proof.
  revert prv cur. induction L as [|[c a] L IH]; simpl; intros prv cur.
  - intros _. constructor.
  - intros (-> & x & Hx & Ha & Hp & Hd). constructor; [|by eapply IH].
    intros Hin. destruct (dll_suffix _ _ _ _ _ Hd Hin) as (p & L2 & H2 & Hlen).
    assert (dll h prv (Some c) ((c, a) :: L)) as H1 by (simpl; eauto 10).
    pose proof (dll_functional _ _ _ _ _ _ H2 H1) as ->. simpl in Hlen. lia.
Qed.

Lemma dll_length h prv cur L : dll h prv cur L → length L ≤ size h.
Proof.
  intros Hd. pose proof (dll_NoDup _ _ _ _ Hd) as Hnd.
  rewrite <- (length_fmap fst L), <- size_dom.
  rewrite <- (size_list_to_set (C := gset positive) (L.*1)) by done.
  apply subseteq_size. intros c Hc. apply elem_of_list_to_set in Hc.
  apply elem_of_dom. by eapply dll_live.
Qed.

(** Where the neighbours of a linked context are. *)
Lemma dll_prev_cases h prv cur L c x :
  dll h prv cur L → c ∈ L.*1 → h !! c = Some x →
  (cur = Some c ∧ prev x = prv) ∨
  (cur ≠ Some c ∧ ∃ p, prev x = Some p ∧ p ∈ L.*1).
Proof.
  revert prv cur.
  induction L as [|[c' a] L IH]; simpl; intros prv cur Hd Hin Hx.
  - by apply elem_of_nil in Hin.
  - destruct Hd as (-> & x' & Hx' & Ha & Hp & Hd).
    destruct (decide (c = c')) as [->|Hne].
    + left. by simplify_eq.
    + right. split; [congruence|].
      apply elem_of_cons in Hin as [?|Hin]; [done|].
      destruct (IH _ _ Hd Hin Hx) as [[_ Hprev]|[_ (p & Hprev & Hp')]].
      * exists c'. split; [done|]. by left.
      * exists p. split; [done|]. by right.
Qed.

Lemma dll_next_cases h prv cur L c x :
  dll h prv cur L → c ∈ L.*1 → h !! c = Some x →
  next x = None ∨ ∃ n, next x = Some n ∧ n ∈ L.*1 ∧ n ≠ c.
Proof.
  intros Hd. pose proof (dll_NoDup _ _ _ _ Hd) as Hnd.
  revert prv cur Hd Hnd.
  induction L as [|[c' a] L IH]; simpl; intros prv cur Hd Hnd Hin Hx.
  - by apply elem_of_nil in Hin.
  - destruct Hd as (-> & x' & Hx' & Ha & Hp & Hd).
    apply NoDup_cons in Hnd as [Hnot Hnd].
    apply elem_of_cons in Hin as [->|Hin].
    + assert (x = x') as -> by congruence.
      destruct (next x') as [n|] eqn:Hn; [|by left]. right.
      apply dll_cons_inv in Hd as (xn & L' & -> & _). exists n.
      split; [done|]. split; [right; by left|].
      intros ->. apply Hnot. by left.
    + destruct (IH _ _ Hd Hnd Hin Hx) as [?|(n & ? & ? & ?)]; [by left|].
      right. exists n. split; [done|]. split; [by right|done].
Qed.

(** ** Linking and unlinking *)

Lemma dll_link_front h hd L c x :
  dll h None hd L → h !! c = Some x → prev x = None → c ∉ L.*1 →
  dll (link_front h c hd) None (Some c) ((c, storage_ptr x) :: L).
Proof.
  intros Hd Hx Hp Hc. pose proof (dll_NoDup _ _ _ _ Hd) as Hnd.
  unfold link_front. destruct hd as [n|].
  - apply dll_cons_inv in Hd as (xn & L' & -> & Hxn & Hpn & Hd).
    assert (c ≠ n) as Hne by (intros ->; apply Hc; by left).
    apply NoDup_cons in Hnd as [Hn Hnd].
    simpl. split; [done|]. exists (upd_next (Some n) x).
    rewrite lookup_alter_ne, lookup_alter_eq, Hx by done.
    repeat split; try done. exists (upd_prev (Some c) xn).
    rewrite lookup_alter_eq, lookup_alter_ne, Hxn by done.
    repeat split; try done. simpl. eapply dll_frame; [done|].
    intros l Hl. rewrite !lookup_alter_ne; [done| |].
    + intros ->. apply Hc. by right.
    + by intros ->.
  - apply dll_nil_inv in Hd as ->. simpl. split; [done|].
    exists (upd_next None x). by rewrite lookup_alter_eq, Hx.
Qed.

Lemma link_front_other h hd L c l :
  dll h None hd L → l ≠ c → l ∉ L.*1 → link_front h c hd !! l = h !! l.
Proof.
  intros Hd Hl Hnot. unfold link_front. destruct hd as [n|].
  - apply dll_cons_inv in Hd as (xn & L' & -> & _).
    rewrite !lookup_alter_ne; [done|done|]. intros ->. apply Hnot. by left.
  - by rewrite lookup_alter_ne.
Qed.

Lemma filter_fst_ne_id (L : list (positive * N)) c :
  c ∉ L.*1 → filter (λ ca, ca.1 ≠ c) L = L.
Proof.
  induction L as [|[c' a] L IH]; [done|]. intros Hc.
  rewrite filter_cons_True; [|simpl; intros ->; apply Hc; by left].
  f_equal. apply IH. intros ?. apply Hc. by right.
Qed.

Lemma dll_unlink h prv cur L c x :
  dll h prv cur L → (∀ p, prv = Some p → p ∉ L.*1) → c ∈ L.*1 →
  h !! c = Some x →
  dll (unlink h c) prv (if decide (cur = Some c) then next x else cur)
      (filter (λ ca, ca.1 ≠ c) L).
Proof.
  intros Hd. pose proof (dll_NoDup _ _ _ _ Hd) as Hnd. revert prv cur Hd Hnd.
  induction L as [|[l a] L IH]; intros prv cur Hd Hnd Hprv Hin Hx.
  { by apply elem_of_nil in Hin. }
  simpl in Hd. destruct Hd as (-> & xl & Hxl & Ha & Hp & Hd). simpl in *.
  apply NoDup_cons in Hnd as [Hl Hnd].
  destruct (decide (l = c)) as [->|Hne].
  - (* the first context of the segment is unlinked *)
    assert (x = xl) as -> by congruence.
    rewrite decide_True by done.
    rewrite filter_cons_False by (simpl; tauto).
    rewrite filter_fst_ne_id by done.
    unfold unlink. rewrite Hxl, Hp.
    destruct (next xl) as [n|] eqn:Hn.
    + apply dll_cons_inv in Hd as (xn & L' & -> & Hxn & Hpn & Hd).
      simpl in *. apply NoDup_cons in Hnd as [Hn' Hnd].
      assert (n ≠ c) as Hnc by (intros ->; apply Hl; by left).
      split; [done|]. exists (upd_prev prv xn).
      assert (∀ p, prv = Some p → p ≠ n) as Hpn'.
      { intros p Hp' ->. eapply Hprv; [done|]. right. by left. }
      assert ((match prv with
               | Some p =>
                   alter (upd_next (Some n)) p (alter (upd_prev prv) n h)
               | None => alter (upd_prev prv) n h
               end) !! n = Some (upd_prev prv xn)) as ->.
      { destruct prv as [p|].
        - rewrite lookup_alter_ne by (by apply Hpn').
          by rewrite lookup_alter_eq, Hxn.
        - by rewrite lookup_alter_eq, Hxn. }
      repeat split; try done. simpl. eapply dll_frame; [done|].
      intros l' Hl'.
      assert (l' ≠ n) by (by intros ->).
      destruct prv as [p|].
      * rewrite !lookup_alter_ne; [done|done|].
        intros ->. eapply Hprv; [done|]. right. by right.
      * by rewrite lookup_alter_ne.
    + apply dll_nil_inv in Hd as ->. simpl. done.
  - (* the unlinked context is further down *)
    rewrite decide_False by congruence.
    rewrite filter_cons_True by done.
    apply elem_of_cons in Hin as [?|Hin]; [congruence|].
    assert (∀ p, Some l = Some p → p ∉ L.*1) as Hprv'.
    { intros p' Heq. by simplify_eq. }
    pose proof (IH _ _ Hd Hnd Hprv' Hin Hx) as IH'.
    simpl. split; [done|].
    destruct (dll_next_cases _ _ _ _ _ _ Hd Hin Hx) as [Hn|(n & Hn & Hn' & _)];
    destruct (dll_prev_cases _ _ _ _ _ _ Hd Hin Hx)
      as [[Hcur Hpx]|[Hcur (p & Hpx & Hp')]].
    all: unfold unlink in *; rewrite Hx in *; rewrite Hn, Hpx in *.
    all: try assert (n ≠ l) by (by intros ->).
    all: try assert (p ≠ l) by (by intros ->).
    + exists (upd_next None xl). rewrite lookup_alter_eq, Hxl.
      repeat split; try done. simpl. by rewrite decide_True in IH' by done.
    + exists xl. rewrite lookup_alter_ne by done.
      repeat split; try done. by rewrite decide_False in IH' by done.
    + exists (upd_next (Some n) xl).
      rewrite lookup_alter_eq, lookup_alter_ne, Hxl by done.
      repeat split; try done. simpl. by rewrite decide_True in IH' by done.
    + exists xl. rewrite !lookup_alter_ne by done.
      repeat split; try done. by rewrite decide_False in IH' by done.
Qed.

Lemma dom_link_front h c hd : dom (link_front h c hd) = dom h.
Proof. unfold link_front. destruct hd; by rewrite ?dom_alter_L. Qed.

Lemma dom_unlink h c : dom (unlink h c) = dom h.
Proof.
  unfold unlink. destruct (h !! c) as [x|]; [|done].
  destruct (next x), (prev x); by rewrite ?dom_alter_L.
Qed.

Lemma is_Some_dom_eq {V} (h h' : gmap positive V) l :
  dom h' = dom h → is_Some (h' !! l) ↔ is_Some (h !! l).
Proof. intros Hdom. by rewrite <- !elem_of_dom, Hdom. Qed.

Lemma unlink_other h cur L c l :
  dll h None cur L → c ∈ L.*1 → l ∉ L.*1 → unlink h c !! l = h !! l.
Proof.
  intros Hd Hc Hl. unfold unlink.
  destruct (h !! c) as [x|] eqn:Hx; [|done].
  destruct (dll_next_cases _ _ _ _ _ _ Hd Hc Hx) as [Hn|(n & Hn & Hn' & _)];
  destruct (dll_prev_cases _ _ _ _ _ _ Hd Hc Hx)
    as [[Hcur Hpx]|[Hcur (p & Hpx & Hp')]].
  all: rewrite Hn, Hpx; try done.
  all: rewrite ?lookup_alter_ne; try done.
  all: by intros ->.
Qed.

(** Unlinking right after linking at the front undoes every change to the
    other contexts. *)
Lemma unlink_link_front h hd L c x :
  dll h None hd L → h !! c = Some x → prev x = None → c ∉ L.*1 →
  unlink (link_front h c hd) c = <[c := upd_next hd x]> h.
Proof.
  intros Hd Hx Hp Hc.
  pose proof (dll_link_front _ _ _ _ _ Hd Hx Hp Hc) as Hd'.
  simpl in Hd'. destruct Hd' as (_ & x' & Hx' & _ & Hp' & Hd').
  unfold unlink. rewrite Hx', Hp'.
  assert (x' = upd_next hd x) as ->.
  { revert Hx'. unfold link_front. destruct hd as [n|].
    - apply dll_cons_inv in Hd as (xn & L' & -> & _).
      rewrite lookup_alter_ne by (intros ->; apply Hc; by left).
      rewrite lookup_alter_eq, Hx. by intros [= <-].
    - rewrite lookup_alter_eq, Hx. by intros [= <-]. }
  simpl. unfold link_front. destruct hd as [n|].
  - apply dll_cons_inv in Hd as (xn & L' & -> & Hxn & Hpn & _).
    assert (n ≠ c) as Hne by (intros ->; apply Hc; by left).
    apply map_eq. intros l.
    destruct (decide (l = n)) as [->|Hln].
    + rewrite lookup_alter_eq, lookup_alter_eq, lookup_alter_ne by done.
      rewrite lookup_insert_ne, Hxn by done. simpl.
      destruct xn as [a nx pv]. simpl in *. by subst.
    + rewrite !lookup_alter_ne by done.
      destruct (decide (l = c)) as [->|Hlc].
      * by rewrite lookup_alter_eq, lookup_insert_eq, Hx.
      * by rewrite lookup_alter_ne, lookup_insert_ne.
  - apply map_eq. intros l. destruct (decide (l = c)) as [->|Hlc].
    + by rewrite lookup_alter_eq, lookup_insert_eq, Hx.
    + by rewrite lookup_alter_ne, lookup_insert_ne.
Qed.

(** ** The bucket operations *)

Lemma run_push_front σ b bk c x L Q E :
  m_wait_table σ !! b = Some bk → ctxs σ !! c = Some x →
  next x = None → prev x = None →
  dll (ctxs σ) None (head bk) L → c ∉ L.*1 →
  Q tt (with_table (<[b := mk_bucket (lock bk) (Some c)]> (m_wait_table σ))
          (with_ctxs (link_front (ctxs σ) c (head bk)) σ)) →
  run (push_front_wait_ctx b c) σ Q E.
Proof.
  intros Hb Hx Hn Hp Hd Hc HQ. unfold push_front_wait_ctx.
  apply run_bind, (run_get_ctx _ _ x); [done|].
  apply run_bind, run_assert; [by rewrite Hn|].
  apply run_bind, run_assert; [by rewrite Hp|].
  apply run_bind, (run_get_head _ _ bk); [done|].
  apply run_bind, (run_set_next _ _ x); [done|].
  apply run_bind. unfold link_front in HQ. destruct (head bk) as [n|] eqn:Hhd.
  - apply dll_cons_inv in Hd as (xn & L' & -> & Hxn & _).
    apply (run_set_prev _ _ xn).
    { simpl. rewrite lookup_alter_ne; [done|]. intros ->. apply Hc. by left. }
    by apply (run_set_head _ _ bk).
  - apply run_ret. by apply (run_set_head _ _ bk).
Qed.

Lemma bucket_eta bk : mk_bucket (lock bk) (head bk) = bk.
Proof. by destruct bk. Qed.

Lemma state_eta σ :
  mk_state (ctxs σ) (m_wait_table σ) (mem σ) (trace σ) = σ.
Proof. by destruct σ. Qed.

Lemma run_remove σ b bk c x L Q E :
  m_wait_table σ !! b = Some bk →
  dll (ctxs σ) None (head bk) L → c ∈ L.*1 → ctxs σ !! c = Some x →
  Q tt (with_table
          (<[b := mk_bucket (lock bk)
                    (if decide (head bk = Some c) then next x else head bk)]>
             (m_wait_table σ))
          (with_ctxs (unlink (ctxs σ) c) σ)) →
  run (remove_wait_ctx b c) σ Q E.
Proof.
  intros Hb Hd Hc Hx HQ. unfold remove_wait_ctx.
  apply run_bind, (run_get_head _ _ bk); [done|].
  apply run_bind, run_assert.
  { destruct (head bk) eqn:Hhd; [done|].
    apply dll_nil_inv in Hd as ->. by apply elem_of_nil in Hc. }
  unfold unlink in HQ. rewrite Hx in HQ.
  (* the state after the conditional update of [head] *)
  set (σ1 := with_table
               (<[b := mk_bucket (lock bk)
                    (if decide (head bk = Some c) then next x else head bk)]>
                  (m_wait_table σ)) σ).
  assert (ctxs σ1 = ctxs σ) as Hh1 by done.
  apply run_bind.
  apply (run_mono _ _ (λ _ σ', σ' = σ1) _ E).
  { unfold ptr_eqb. case_bool_decide as Hhd.
    - apply run_bind, (run_get_ctx _ _ x); [done|].
      apply (run_set_head _ _ bk); [done|]. unfold σ1.
      by rewrite decide_True.
    - apply run_ret. unfold σ1. rewrite decide_False by done.
      rewrite bucket_eta, list_insert_id by done. unfold with_table.
      by rewrite state_eta. }
  2: done.
  intros _ ? ->.
  apply run_bind, (run_get_ctx _ _ x); [by rewrite Hh1|].
  destruct (dll_next_cases _ _ _ _ _ _ Hd Hc Hx) as [Hn|(n & Hn & Hn' & Hnc)];
    rewrite Hn in HQ |- *.
  - apply run_bind, run_ret.
    apply run_bind, (run_get_ctx _ _ x); [by rewrite Hh1|].
    destruct (prev x) as [p|] eqn:Hp.
    + destruct (dll_prev_cases _ _ _ _ _ _ Hd Hc Hx)
        as [[_ ?]|[_ (p' & Hp' & Hin)]]; [congruence|].
      assert (p' = p) as -> by congruence.
      destruct (dll_live _ _ _ _ _ Hd Hin) as [xp Hxp].
      apply (run_set_next _ _ xp); [by rewrite Hh1|].
      subst σ1. simpl. by rewrite Hn.
    + apply run_ret. subst σ1. by rewrite Hn.
  - destruct (dll_live _ _ _ _ _ Hd Hn') as [xn Hxn].
    apply run_bind, (run_set_prev _ _ xn); [by rewrite Hh1|].
    apply run_bind, (run_get_ctx _ _ x).
    { simpl. by rewrite lookup_alter_ne. }
    destruct (prev x) as [p|] eqn:Hp.
    + destruct (dll_prev_cases _ _ _ _ _ _ Hd Hc Hx)
        as [[_ ?]|[_ (p' & Hp' & Hin)]]; [congruence|].
      assert (p' = p) as -> by congruence.
      assert (is_Some (alter (upd_prev (Some p)) n (ctxs σ) !! p)) as [xp Hxp].
      { rewrite (is_Some_dom_eq (ctxs σ)) by apply dom_alter_L.
        by eapply dll_live. }
      apply (run_set_next _ _ xp); [done|].
      subst σ1. simpl. by rewrite Hn.
    + apply run_ret. subst σ1. simpl. by rewrite Hn.
Qed.

Lemma elem_of_filter_fst (L : list (positive * N)) c l :
  l ∈ (filter (λ ca, ca.1 ≠ c) L).*1 ↔ l ∈ L.*1 ∧ l ≠ c.
Proof.
  rewrite !list_elem_of_fmap. split.
  - intros ([l' a] & -> & [Hne Hin]%list_elem_of_filter). split; [|done].
    by exists (l', a).
  - intros [([l' a] & -> & Hin) Hne]. exists (l', a). split; [done|].
    by apply list_elem_of_filter.
Qed.

(** ** The table invariant *)

Section table.
Context `{P : platform}.

Lemma get_bucket_for_lt a : get_bucket_for a < N.to_nat k_wait_table_size.
Proof.
  unfold get_bucket_for, k_wait_table_size.
  pose proof (N.mod_upper_bound (hasher a) 257). lia.
Qed.

Lemma table_inv_lookup held σ Ls b :
  table_inv held σ Ls → b < N.to_nat k_wait_table_size →
  ∃ bk L, m_wait_table σ !! b = Some bk ∧ Ls !! b = Some L ∧
          lock bk = bool_decide (held = Some b) ∧
          dll (ctxs σ) None (head bk) L.
Proof.
  intros Hinv Hb.
  destruct (lookup_lt_is_Some_2 (m_wait_table σ) b) as [bk Hbk].
  { by rewrite (inv_size _ _ _ Hinv). }
  destruct (lookup_lt_is_Some_2 Ls b) as [L HL].
  { by rewrite (inv_lists _ _ _ Hinv). }
  exists bk, L. split; [done|]. split; [done|]. by eapply inv_bucket.
Qed.

Lemma table_inv_dll held σ Ls i L :
  table_inv held σ Ls → Ls !! i = Some L →
  ∃ bk, m_wait_table σ !! i = Some bk ∧ dll (ctxs σ) None (head bk) L.
Proof.
  intros Hinv HL.
  destruct (table_inv_lookup held σ Ls i Hinv)
    as (bk & L' & Hbk & HL' & _ & Hd).
  { rewrite <- (inv_lists _ _ _ Hinv). by eapply lookup_lt_Some. }
  exists bk. split; [done|]. congruence.
Qed.

(** A context is linked into one bucket only. *)
Lemma table_inv_disjoint held σ Ls i j L L' c :
  table_inv held σ Ls → Ls !! i = Some L → Ls !! j = Some L' →
  c ∈ L.*1 → c ∈ L'.*1 → i = j.
Proof.
  intros Hinv HL HL' Hc Hc'.
  destruct (table_inv_dll _ _ _ _ _ Hinv HL) as (bk & _ & Hd).
  destruct (table_inv_dll _ _ _ _ _ Hinv HL') as (bk' & _ & Hd').
  apply list_elem_of_fmap in Hc as ([c1 a] & -> & Hin).
  apply list_elem_of_fmap in Hc' as ([c2 a'] & Heq & Hin').
  simpl in Heq. subst c2.
  destruct (dll_lookup _ _ _ _ _ _ Hd Hin) as (x & Hx & Ha).
  destruct (dll_lookup _ _ _ _ _ _ Hd' Hin') as (x' & Hx' & Ha').
  rewrite <- (inv_home _ _ _ Hinv _ _ _ HL Hin).
  rewrite <- (inv_home _ _ _ Hinv _ _ _ HL' Hin'). simpl. congruence.
Qed.

Lemma table_inv_update held held' σ Ls b bk bk' h' L' :
  table_inv held σ Ls →
  m_wait_table σ !! b = Some bk →
  lock bk' = bool_decide (held' = Some b) →
  dll h' None (head bk') L' →
  (∀ i, i ≠ b → bool_decide (held' = Some i) = bool_decide (held = Some i)) →
  (∀ i L l, i ≠ b → Ls !! i = Some L → l ∈ L.*1 → h' !! l = ctxs σ !! l) →
  (∀ ca, ca ∈ L' → get_bucket_for ca.2 = b) →
  (∀ c, is_Some (h' !! c) →
        c ∈ L'.*1 ∨ ∃ i L, i ≠ b ∧ Ls !! i = Some L ∧ c ∈ L.*1) →
  table_inv held'
    (with_table (<[b := bk']> (m_wait_table σ)) (with_ctxs h' σ))
    (<[b := L']> Ls).
Proof.
  intros Hinv Hbk Hlock Hd Hheld Hframe Hhome Hlive.
  assert (b < length (m_wait_table σ)) as Hlt by (by eapply lookup_lt_Some).
  assert (b < length Ls) as Hlt'.
  { by rewrite (inv_lists _ _ _ Hinv), <- (inv_size _ _ _ Hinv). }
  constructor; simpl.
  - rewrite length_insert. by eapply inv_size.
  - rewrite length_insert. by eapply inv_lists.
  - intros i bki Li. destruct (decide (i = b)) as [->|Hne].
    + rewrite !list_lookup_insert_eq by done. by intros [= <-] [= <-].
    + rewrite !list_lookup_insert_ne by done. intros Hbki HLi.
      destruct (inv_bucket _ _ _ Hinv _ _ _ Hbki HLi) as [Hl Hdi].
      split; [by rewrite Hheld|]. eapply dll_frame; [done|]. eauto.
  - intros i Li ca. destruct (decide (i = b)) as [->|Hne].
    + rewrite list_lookup_insert_eq by done. intros [= <-]. apply Hhome.
    + rewrite list_lookup_insert_ne by done. by eapply inv_home.
  - intros c Hc. destruct (Hlive c Hc) as [Hin|(i & L & Hne & HL & Hin)].
    + exists b, L'. by rewrite list_lookup_insert_eq.
    + exists i, L. by rewrite list_lookup_insert_ne.
Qed.

Lemma table_inv_lock σ Ls b bk :
  table_inv None σ Ls → m_wait_table σ !! b = Some bk →
  table_inv (Some b)
    (with_table (<[b := mk_bucket true (head bk)]> (m_wait_table σ)) σ) Ls.
Proof.
  intros Hinv Hbk.
  destruct (table_inv_lookup None σ Ls b Hinv)
    as (bk' & L & Hbk' & HL & _ & Hd).
  { rewrite <- (inv_size _ _ _ Hinv). by eapply lookup_lt_Some. }
  assert (bk' = bk) as -> by congruence.
  rewrite <- (list_insert_id Ls b L) by done.
  apply (table_inv_update None (Some b) σ Ls b bk _ (ctxs σ) L); try done.
  - simpl. by rewrite bool_decide_eq_true_2.
  - intros i Hne. rewrite !bool_decide_eq_false_2; [done|done|congruence].
  - intros ca Hca. by eapply inv_home.
  - intros c Hc. destruct (inv_live _ _ _ Hinv c Hc) as (i & Li & HLi & Hin).
    destruct (decide (i = b)) as [->|Hne]; [left; congruence|right; eauto].
Qed.

Lemma table_inv_unlock σ Ls b bk :
  table_inv (Some b) σ Ls → m_wait_table σ !! b = Some bk →
  table_inv None
    (with_table (<[b := mk_bucket false (head bk)]> (m_wait_table σ)) σ) Ls.
Proof.
  intros Hinv Hbk.
  destruct (table_inv_lookup (Some b) σ Ls b Hinv)
    as (bk' & L & Hbk' & HL & _ & Hd).
  { rewrite <- (inv_size _ _ _ Hinv). by eapply lookup_lt_Some. }
  assert (bk' = bk) as -> by congruence.
  rewrite <- (list_insert_id Ls b L) by done.
  apply (table_inv_update (Some b) None σ Ls b bk _ (ctxs σ) L); try done.
  - intros i Hne. rewrite !bool_decide_eq_false_2; [done|congruence|done].
  - intros ca Hca. by eapply inv_home.
  - intros c Hc. destruct (inv_live _ _ _ Hinv c Hc) as (i & Li & HLi & Hin).
    destruct (decide (i = b)) as [->|Hne]; [left; congruence|right; eauto].
Qed.

Lemma table_inv_register held σ Ls b bk L c a :
  table_inv held σ Ls → m_wait_table σ !! b = Some bk → Ls !! b = Some L →
  ctxs σ !! c = None → get_bucket_for a = b →
  table_inv held
    (with_table (<[b := mk_bucket (lock bk) (Some c)]> (m_wait_table σ))
       (with_ctxs
          (link_front (<[c := mk_wait_context a None None]> (ctxs σ)) c
             (head bk))
          σ))
    (<[b := (c, a) :: L]> Ls).
Proof.
  intros Hinv Hbk HL Hc Ha.
  destruct (inv_bucket _ _ _ Hinv _ _ _ Hbk HL) as [Hlock Hd].
  assert (c ∉ L.*1) as HcL.
  { intros Hin. destruct (dll_live _ _ _ _ _ Hd Hin) as [? ?]. congruence. }
  assert (dll (<[c := mk_wait_context a None None]> (ctxs σ)) None (head bk) L)
    as Hd0.
  { eapply dll_frame; [done|]. intros l Hl. rewrite lookup_insert_ne; [done|].
    by intros ->. }
  apply (table_inv_update held held σ Ls b bk); try done.
  - apply (dll_link_front _ _ _ _ (mk_wait_context a None None)); try done.
    by rewrite lookup_insert_eq.
  - intros i Li l Hne HLi Hl.
    assert (l ≠ c) as Hlc.
    { intros ->. destruct (table_inv_dll _ _ _ _ _ Hinv HLi) as (? & _ & Hdi).
      destruct (dll_live _ _ _ _ _ Hdi Hl) as [? ?]. congruence. }
    rewrite (link_front_other _ _ L) ; [by rewrite lookup_insert_ne|done|done|].
    intros Hin. apply Hne. by eapply table_inv_disjoint.
  - intros ca [->|Hin]%elem_of_cons; [done|]. by eapply inv_home.
  - intros l Hl. apply elem_of_dom in Hl.
    rewrite dom_link_front, dom_insert_L in Hl.
    apply elem_of_union in Hl as [->%elem_of_singleton|Hl]; [left; by left|].
    apply elem_of_dom in Hl.
    destruct (inv_live _ _ _ Hinv l Hl) as (i & Li & HLi & Hin).
    destruct (decide (i = b)) as [->|Hne]; [|right; eauto].
    left. right. by assert (L = Li) as -> by congruence.
Qed.

Lemma table_inv_unregister held σ Ls b bk L c x :
  table_inv held σ Ls → m_wait_table σ !! b = Some bk → Ls !! b = Some L →
  c ∈ L.*1 → ctxs σ !! c = Some x →
  table_inv held
    (with_table
       (<[b := mk_bucket (lock bk)
                 (if decide (head bk = Some c) then next x else head bk)]>
          (m_wait_table σ))
       (with_ctxs (delete c (unlink (ctxs σ) c)) σ))
    (<[b := filter (λ ca, ca.1 ≠ c) L]> Ls).
Proof.
  intros Hinv Hbk HL Hin Hx.
  destruct (inv_bucket _ _ _ Hinv _ _ _ Hbk HL) as [Hlock Hd].
  apply (table_inv_update held held σ Ls b bk); try done.
  - simpl. eapply dll_frame; [by apply dll_unlink|].
    intros l [_ Hl]%elem_of_filter_fst. by rewrite lookup_delete_ne.
  - intros i Li l Hne HLi Hl.
    assert (l ∉ L.*1) as HlL.
    { intros Hin'. apply Hne. by eapply table_inv_disjoint. }
    rewrite lookup_delete_ne by (intros ->; done).
    by eapply unlink_other.
  - intros ca [_ Hca]%list_elem_of_filter. by eapply inv_home.
  - intros l Hl. apply elem_of_dom in Hl.
    rewrite dom_delete_L, dom_unlink in Hl.
    apply elem_of_difference in Hl as [Hl Hlc].
    rewrite elem_of_singleton in Hlc. apply elem_of_dom in Hl.
    destruct (inv_live _ _ _ Hinv l Hl) as (i & Li & HLi & Hin').
    destruct (decide (i = b)) as [->|Hne]; [|right; eauto].
    left. apply elem_of_filter_fst. split; [|done].
    by assert (L = Li) as -> by congruence.
Qed.

End table.

(** ** Construction and destruction of a scoped context *)

Lemma run_scoped_wait_context σ b bk L c a Q E :
  m_wait_table σ !! b = Some bk → dll (ctxs σ) None (head bk) L →
  ctxs σ !! c = None →
  Q c (with_table (<[b := mk_bucket (lock bk) (Some c)]> (m_wait_table σ))
         (with_ctxs
            (link_front (<[c := mk_wait_context a None None]> (ctxs σ)) c
               (head bk)) σ)) →
  run (scoped_wait_context false c b a) σ Q E.
Proof.
  intros Hbk Hd Hc HQ. unfold scoped_wait_context.
  assert (c ∉ L.*1) as HcL.
  { intros Hin. destruct (dll_live _ _ _ _ _ Hd Hin) as [? ?]. congruence. }
  apply run_bind. unfold run at 1, new_wait_context. rewrite Hc.
  apply run_bind.
  apply (run_push_front _ b bk c (mk_wait_context a None None) L); try done.
  - simpl. by rewrite lookup_insert_eq.
  - simpl. eapply dll_frame; [done|]. intros l Hl.
    rewrite lookup_insert_ne; [done|]. by intros ->.
Qed.

Lemma run_destroy_scoped_wait_context σ b bk L c x Q E :
  m_wait_table σ !! b = Some bk → dll (ctxs σ) None (head bk) L →
  c ∈ L.*1 → ctxs σ !! c = Some x →
  Q tt (with_table
          (<[b := mk_bucket (lock bk)
                    (if decide (head bk = Some c) then next x else head bk)]>
             (m_wait_table σ))
          (with_ctxs (delete c (unlink (ctxs σ) c)) σ)) →
  run (destroy_scoped_wait_context b c) σ Q E.
Proof.
  intros Hbk Hd Hc Hx HQ. unfold destroy_scoped_wait_context.
  apply run_bind. by apply (run_remove _ b bk c x L).
Qed.

(** ** The scans *)

Lemma with_trace_app σ tr1 tr2 :
  with_trace (trace (with_trace (trace σ ++ tr1) σ) ++ tr2)
    (with_trace (trace σ ++ tr1) σ) =
  with_trace (trace σ ++ tr1 ++ tr2) σ.
Proof. unfold with_trace. simpl. by rewrite app_assoc. Qed.

Lemma with_trace_nil σ : with_trace (trace σ ++ []) σ = σ.
Proof. unfold with_trace. rewrite app_nil_r. apply state_eta. Qed.

Lemma run_notify_one_loop a L : ∀ fuel σ prv cur Q E,
  dll (ctxs σ) prv cur L → length L ≤ fuel →
  Q tt (with_trace (trace σ ++ one_events a L) σ) →
  run (notify_one_loop fuel a cur) σ Q E.
Proof.
  induction L as [|[c a'] L IH]; intros fuel σ prv cur Q E Hd Hfuel HQ.
  - simpl in Hd. subst cur. destruct fuel; simpl; apply run_ret;
      by rewrite with_trace_nil in HQ.
  - simpl in Hd. destruct Hd as (-> & x & Hx & Ha & Hp & Hd). simpl in *.
    destruct fuel as [|fuel]; [lia|]. simpl.
    apply run_bind, (run_get_ctx _ _ x); [done|].
    apply run_bind, run_log. rewrite Ha.
    destruct (a' =? a)%N.
    + apply run_log. by rewrite (with_trace_app σ [ev_examine c]).
    + apply (IH fuel _ (Some c)); [done|lia|].
      by rewrite (with_trace_app σ [ev_examine c]).
Qed.

Lemma run_notify_all_loop a L : ∀ fuel σ prv cur Q E,
  dll (ctxs σ) prv cur L → length L ≤ fuel →
  Q tt (with_trace (trace σ ++ all_events a L) σ) →
  run (notify_all_loop fuel a cur) σ Q E.
Proof.
  induction L as [|[c a'] L IH]; intros fuel σ prv cur Q E Hd Hfuel HQ.
  - simpl in Hd. subst cur. destruct fuel; simpl; apply run_ret;
      by rewrite with_trace_nil in HQ.
  - simpl in Hd. destruct Hd as (-> & x & Hx & Ha & Hp & Hd). simpl in *.
    destruct fuel as [|fuel]; [lia|]. simpl.
    apply run_bind, (run_get_ctx _ _ x); [done|].
    apply run_bind, run_log. rewrite Ha.
    apply run_bind. destruct (a' =? a)%N.
    + apply run_log. rewrite (with_trace_app σ [ev_examine c]).
      apply (IH fuel _ (Some c)); [done|lia|].
      rewrite (with_trace_app σ ([ev_examine c] ++ [ev_cv_notify_all c])).
      by rewrite <- app_assoc.
    + apply run_ret. apply (IH fuel _ (Some c)); [done|lia|].
      by rewrite (with_trace_app σ [ev_examine c]).
Qed.

Lemma run_ret_eq {A} (m : M A) σ a σ' :
  run m σ (λ a' σ'', a' = a ∧ σ'' = σ') no_throw → m σ = Ret a σ'.
Proof.
  unfold run, no_throw. destruct (m σ); [|done|done]. by intros [-> ->].
Qed.

Lemma run_scan_bound σ Q E : Q (size (ctxs σ)) σ → run scan_bound σ Q E.
Proof. done. Qed.

Lemma table_relock_id (tbl : list wait_table_bucket) b bk hd :
  tbl !! b = Some bk → lock bk = false → head bk = hd →
  <[b := mk_bucket false hd]> (<[b := mk_bucket true hd]> tbl) = tbl.
Proof.
  intros Hbk Hl <-. rewrite list_insert_insert_eq. apply list_insert_id.
  rewrite Hbk. f_equal. destruct bk. simpl in *. by subst.
Qed.

(** ** Steps of the protocol, on the invariant *)

Section protocol.
Context `{P : platform}.

Lemma table_inv_with_trace held σ Ls tr :
  table_inv held σ Ls → table_inv held (with_trace tr σ) Ls.
Proof. intros [? ? ? ? ?]. by constructor. Qed.

Lemma table_inv_with_mem held σ Ls m :
  table_inv held σ Ls → table_inv held (with_mem m σ) Ls.
Proof. intros [? ? ? ? ?]. by constructor. Qed.

Lemma run_mutex_lock_inv σ Ls b Q E :
  table_inv None σ Ls → b < N.to_nat k_wait_table_size →
  (∀ σ', table_inv (Some b) σ' Ls → trace σ' = trace σ → mem σ' = mem σ →
         ctxs σ' = ctxs σ → Q tt σ') →
  run (mutex_lock b) σ Q E.
Proof.
  intros Hinv Hb HQ.
  destruct (table_inv_lookup _ _ _ _ Hinv Hb) as (bk & L & Hbk & HL & Hl & Hd).
  apply (run_mutex_lock _ _ bk); [done|done|].
  apply HQ; try done. by apply table_inv_lock.
Qed.

Lemma run_mutex_unlock_inv σ Ls b Q E :
  table_inv (Some b) σ Ls → b < N.to_nat k_wait_table_size →
  (∀ σ', table_inv None σ' Ls → trace σ' = trace σ → mem σ' = mem σ →
         ctxs σ' = ctxs σ → Q tt σ') →
  run (mutex_unlock b) σ Q E.
Proof.
  intros Hinv Hb HQ.
  destruct (table_inv_lookup _ _ _ _ Hinv Hb) as (bk & L & Hbk & HL & Hl & Hd).
  apply (run_mutex_unlock _ _ bk); [done|by rewrite Hl, bool_decide_eq_true_2|].
  apply HQ; try done. by apply table_inv_unlock.
Qed.

Lemma run_register_inv held σ Ls L c a Q E :
  table_inv held σ Ls → Ls !! get_bucket_for a = Some L →
  ctxs σ !! c = None →
  (∀ σ', table_inv held σ' (<[get_bucket_for a := (c, a) :: L]> Ls) →
         trace σ' = trace σ → mem σ' = mem σ →
         dom (ctxs σ') = {[c]} ∪ dom (ctxs σ) → Q c σ') →
  run (scoped_wait_context false c (get_bucket_for a) a) σ Q E.
Proof.
  intros Hinv HL Hc HQ.
  destruct (table_inv_dll _ _ _ _ _ Hinv HL) as (bk & Hbk & Hd).
  apply (run_scoped_wait_context _ _ bk L); try done.
  apply HQ; try done.
  - by apply table_inv_register.
  - simpl. by rewrite dom_link_front, dom_insert_L.
Qed.

Lemma run_destroy_inv held σ Ls b L c Q E :
  table_inv held σ Ls → Ls !! b = Some L → c ∈ L.*1 →
  (∀ σ', table_inv held σ' (<[b := filter (λ ca, ca.1 ≠ c) L]> Ls) →
         trace σ' = trace σ → mem σ' = mem σ →
         dom (ctxs σ') = dom (ctxs σ) ∖ {[c]} → Q tt σ') →
  run (destroy_scoped_wait_context b c) σ Q E.
Proof.
  intros Hinv HL Hc HQ.
  destruct (table_inv_dll _ _ _ _ _ Hinv HL) as (bk & Hbk & Hd).
  destruct (dll_live _ _ _ _ _ Hd Hc) as [x Hx].
  apply (run_destroy_scoped_wait_context _ _ bk L c x); try done.
  apply HQ; try done.
  - by apply table_inv_unregister.
  - simpl. by rewrite dom_delete_L, dom_unlink.
Qed.

(** ** [notify_one] and [notify_all] *)

Lemma notify_one_throws ω σ a :
  lock_fails ω = true → notify_one ω a σ = Throw system_error σ.
Proof. intros Hf. unfold notify_one, unique_lock. by rewrite Hf. Qed.

Lemma notify_all_throws ω σ a :
  lock_fails ω = true → notify_all ω a σ = Throw system_error σ.
Proof. intros Hf. unfold notify_all, unique_lock. by rewrite Hf. Qed.

Lemma notify_one_returns ω σ Ls a L :
  table_inv None σ Ls → Ls !! get_bucket_for a = Some L →
  lock_fails ω = false →
  notify_one ω a σ = Ret tt (with_trace (trace σ ++ one_events a L) σ).
Proof.
  intros Hinv HL Hf. apply run_ret_eq.
  destruct (table_inv_lookup _ _ _ _ Hinv (get_bucket_for_lt a))
    as (bk & L' & Hbk & HL' & Hl & Hd).
  assert (L' = L) as -> by congruence.
  rewrite bool_decide_eq_false_2 in Hl by done.
  unfold notify_one, unique_lock. rewrite Hf.
  apply run_bind, (run_mutex_lock _ _ bk); [done|done|].
  apply run_scope_exit.
  apply run_bind, (run_get_head _ _ (mk_bucket true (head bk))).
  { simpl. apply list_lookup_insert_eq. by eapply lookup_lt_Some. }
  apply run_bind, run_scan_bound.
  apply (run_notify_one_loop a L _ _ None); [done|by eapply dll_length|].
  apply (run_mutex_unlock _ _ (mk_bucket true (head bk))); [|done|].
  { simpl. apply list_lookup_insert_eq. by eapply lookup_lt_Some. }
  split; [done|]. unfold with_table, with_trace. simpl.
  by rewrite (table_relock_id _ _ bk).
Qed.

Lemma notify_all_returns ω σ Ls a L :
  table_inv None σ Ls → Ls !! get_bucket_for a = Some L →
  lock_fails ω = false →
  notify_all ω a σ = Ret tt (with_trace (trace σ ++ all_events a L) σ).
Proof.
  intros Hinv HL Hf. apply run_ret_eq.
  destruct (table_inv_lookup _ _ _ _ Hinv (get_bucket_for_lt a))
    as (bk & L' & Hbk & HL' & Hl & Hd).
  assert (L' = L) as -> by congruence.
  rewrite bool_decide_eq_false_2 in Hl by done.
  unfold notify_all, unique_lock. rewrite Hf.
  apply run_bind, (run_mutex_lock _ _ bk); [done|done|].
  apply run_scope_exit.
  apply run_bind, (run_get_head _ _ (mk_bucket true (head bk))).
  { simpl. apply list_lookup_insert_eq. by eapply lookup_lt_Some. }
  apply run_bind, run_scan_bound.
  apply (run_notify_all_loop a L _ _ None); [done|by eapply dll_length|].
  apply (run_mutex_unlock _ _ (mk_bucket true (head bk))); [|done|].
  { simpl. apply list_lookup_insert_eq. by eapply lookup_lt_Some. }
  split; [done|]. unfold with_table, with_trace. simpl.
  by rewrite (table_relock_id _ _ bk).
Qed.

End protocol.

(** ** Other threads *)

Lemma run_by_other_thread {A} (m : M A) σ Q E :
  run m σ (λ a σ', Q a (with_trace (trace σ) σ'))
          (λ e σ', E e (with_trace (trace σ) σ')) →
  run (by_other_thread m) σ Q E.
Proof. unfold run, by_other_thread. by destruct (m σ). Qed.

Section environment.
Context `{P : platform}.

Lemma list_alter_lookup_insert {A} (f : A → A) (l : list A) i x :
  l !! i = Some x → alter f i l = <[i := f x]> l.
Proof.
  intros Hx. apply list_eq. intros j. destruct (decide (i = j)) as [<-|Hne].
  - rewrite list_lookup_alter_eq, Hx, list_lookup_insert_eq; [done|].
    by eapply lookup_lt_Some.
  - by rewrite list_lookup_alter_ne, list_lookup_insert_ne.
Qed.

Lemma abs_unregister_eq held σ Ls b L c :
  table_inv held σ Ls → Ls !! b = Some L → c ∈ L.*1 →
  filter (λ ca, ca.1 ≠ c) <$> Ls = <[b := filter (λ ca, ca.1 ≠ c) L]> Ls.
Proof.
  intros Hinv HL Hc. apply list_eq. intros i. rewrite list_lookup_fmap.
  destruct (decide (i = b)) as [->|Hne].
  - rewrite HL, list_lookup_insert_eq; [done|]. by eapply lookup_lt_Some.
  - rewrite list_lookup_insert_ne by done.
    destruct (Ls !! i) as [Li|] eqn:HLi; [|done]. simpl. f_equal.
    apply filter_fst_ne_id. intros Hin. apply Hne.
    by eapply table_inv_disjoint.
Qed.

Lemma run_env_op_inv me op ops σ Ls Q :
  table_inv None σ Ls → env_ok me (dom (ctxs σ)) (op :: ops) →
  (∀ σ', table_inv None σ' (abs_op op Ls) → trace σ' = trace σ →
         env_ok me (dom (ctxs σ')) ops → Q tt σ') →
  run (run_env_op op) σ Q no_throw.
Proof.
  intros Hinv Hok HQ. unfold run_env_op. apply run_by_other_thread.
  destruct op as [c a|c|a|a|a v]; simpl in Hok.
  - (* another thread registers [c] *)
    destruct Hok as [Hc Hok]. apply not_elem_of_dom in Hc.
    destruct (table_inv_lookup _ _ _ _ Hinv (get_bucket_for_lt a))
      as (bk & L & Hbk & HL & _).
    apply run_bind, (run_mutex_lock_inv _ Ls); [done|apply get_bucket_for_lt|].
    intros σ1 Hinv1 Htr1 Hmem1 Hh1.
    apply run_bind, (run_register_inv (Some (get_bucket_for a)) _ Ls L);
      [done|done|by rewrite Hh1|].
    intros σ2 Hinv2 Htr2 Hmem2 Hdom2.
    eapply run_mutex_unlock_inv; [done|apply get_bucket_for_lt|].
    intros σ3 Hinv3 Htr3 Hmem3 Hh3. apply HQ.
    + apply table_inv_with_trace. simpl.
      by rewrite (list_alter_lookup_insert _ _ _ L).
    + done.
    + simpl. by rewrite Hh3, Hdom2, Hh1.
  - (* another thread unregisters [c] *)
    destruct Hok as (Hc & Hme & Hok). apply elem_of_dom in Hc as Hx.
    destruct Hx as [x Hx].
    destruct (inv_live _ _ _ Hinv c) as (i & L & HL & Hin); [by exists x|].
    destruct (table_inv_dll _ _ _ _ _ Hinv HL) as (bk & Hbk & Hd).
    assert (get_bucket_for (storage_ptr x) = i) as Hi.
    { apply list_elem_of_fmap in Hin as ([c' a] & -> & Hin').
      destruct (dll_lookup _ _ _ _ _ _ Hd Hin') as (x' & Hx' & Ha).
      simpl in *. assert (x' = x) as -> by congruence. rewrite Ha.
      by apply (inv_home _ _ _ Hinv _ _ _ HL Hin'). }
    apply run_bind, (run_get_ctx _ _ x); [done|]. rewrite Hi.
    assert (i < N.to_nat k_wait_table_size) as Hlt.
    { rewrite <- Hi. apply get_bucket_for_lt. }
    apply run_bind, (run_mutex_lock_inv _ Ls); [done|done|].
    intros σ1 Hinv1 Htr1 Hmem1 Hh1.
    apply run_bind, (run_destroy_inv (Some i) _ Ls i L); [done|done|done|].
    intros σ2 Hinv2 Htr2 Hmem2 Hdom2.
    eapply run_mutex_unlock_inv; [done|done|].
    intros σ3 Hinv3 Htr3 Hmem3 Hh3. apply HQ.
    + apply table_inv_with_trace. simpl.
      by rewrite (abs_unregister_eq _ _ _ _ _ _ Hinv HL Hin).
    + done.
    + simpl. by rewrite Hh3, Hdom2, Hh1.
  - (* a notify by another thread *)
    destruct (table_inv_lookup _ _ _ _ Hinv (get_bucket_for_lt a))
      as (bk & L & Hbk & HL & _).
    eapply run_eq; [by eapply (notify_one_returns calm)|].
    apply HQ; [|done|done]. by do 2 apply table_inv_with_trace.
  - destruct (table_inv_lookup _ _ _ _ Hinv (get_bucket_for_lt a))
      as (bk & L & Hbk & HL & _).
    eapply run_eq; [by eapply (notify_all_returns calm)|].
    apply HQ; [|done|done]. by do 2 apply table_inv_with_trace.
  - (* a store to a watched word *)
    apply HQ; [|done|done]. by apply table_inv_with_trace, table_inv_with_mem.
Qed.

Lemma run_interfere me ops : ∀ σ Ls Q,
  table_inv None σ Ls → env_ok me (dom (ctxs σ)) ops →
  (∀ σ', table_inv None σ' (abs_run ops Ls) → trace σ' = trace σ → Q tt σ') →
  run (interfere ops) σ Q no_throw.
Proof.
  induction ops as [|op ops IH]; intros σ Ls Q Hinv Hok HQ.
  - apply run_ret. by apply HQ.
  - simpl. apply run_bind, (run_env_op_inv me op ops σ Ls); [done|done|].
    intros σ1 Hinv1 Htr1 Hok1. apply (IH σ1 (abs_op op Ls)); [done|done|].
    intros σ2 Hinv2 Htr2. apply HQ; [done|congruence].
Qed.

(** A context that no other thread unregisters stays where it is. *)
Lemma abs_run_keeps me a ops : ∀ live Ls b L,
  env_ok (Some me) live ops → me ∈ live → Ls !! b = Some L → (me, a) ∈ L →
  ∃ L', abs_run ops Ls !! b = Some L' ∧ (me, a) ∈ L'.
Proof.
  induction ops as [|op ops IH]; intros live Ls b L Hok Hme HL Hin.
  { exists L. by split. }
  destruct op as [c a'|c|a'|a'|a' v]; simpl in Hok |- *.
  - destruct Hok as [Hc Hok].
    destruct (decide (get_bucket_for a' = b)) as [Hb|Hb].
    + apply (IH _ _ b ((c, a') :: L) Hok).
      * apply elem_of_union. by right.
      * by rewrite Hb, list_lookup_alter_eq, HL.
      * by right.
    + apply (IH _ _ b L Hok).
      * apply elem_of_union. by right.
      * by rewrite list_lookup_alter_ne.
      * done.
  - destruct Hok as (Hc & Hne & Hok).
    apply (IH _ _ b (filter (λ ca, ca.1 ≠ c) L) Hok).
    + apply elem_of_difference. split; [done|].
      rewrite elem_of_singleton. congruence.
    + by rewrite list_lookup_fmap, HL.
    + apply list_elem_of_filter. split; [|done]. simpl. congruence.
  - by apply (IH live _ b L).
  - by apply (IH live _ b L).
  - by apply (IH live _ b L).
Qed.

End environment.

(** ** [memcmp] *)

Lemma memcmp_bytes_eq l : ∀ r,
  length l = length r → memcmp_bytes l r = 0%Z ↔ l = r.
Proof.
  induction l as [|x l IH]; intros [|y r] Hlen; simpl in *; try done.
  destruct (Z.eqb_spec x y) as [->|Hne].
  - rewrite IH by lia. split; [by intros ->|by intros [= ->]].
  - split; [lia|by intros [= -> ->]].
Qed.

Lemma length_load σ a n : length (load σ a n) = n.
Proof. unfold load. by rewrite length_map, length_seq. Qed.

Lemma memcmp_zero σ a cmp n :
  n ≤ length cmp →
  memcmp_bytes (load σ a n) (take n cmp) = 0%Z ↔ load σ a n = take n cmp.
Proof.
  intros Hn. apply memcmp_bytes_eq. rewrite length_load, length_take. lia.
Qed.

Lemma run_memcmp σ a cmp n Q E :
  n ≤ length cmp →
  Q (memcmp_bytes (load σ a n) (take n cmp))
    (with_trace (trace σ ++ [ev_memcmp a n]) σ) →
  run (memcmp a cmp n) σ Q E.
Proof. intros Hn HQ. unfold run, memcmp. by rewrite decide_True. Qed.

Lemma link_front_lookup_self h c hd x :
  h !! c = Some x → hd ≠ Some c →
  link_front h c hd !! c = Some (upd_next hd x).
Proof.
  intros Hx Hne. unfold link_front. destruct hd as [n|].
  - rewrite lookup_alter_ne by congruence. by rewrite lookup_alter_eq, Hx.
  - by rewrite lookup_alter_eq, Hx.
Qed.

(** ** [wait] when the value has already changed, and when a step fails *)

Section wait_immediate.
Context `{P : platform}.

(** Lock, register, compare, and - the bytes differing - unregister and
    unlock: apart from the trace the state is the one before the call. *)
Lemma run_wait_changed (blocks : nat → positive → M unit) ω σ Ls a cmp n :
  table_inv None σ Ls → ctxs σ !! context_at ω = None →
  lock_fails ω = false → cv_ctor_fails ω = false →
  n ≤ length cmp → load σ a n ≠ take n cmp →
  (let bucket := get_bucket_for a in
   unique_lock (lock_fails ω) bucket;;
   at_scope_exit (mutex_unlock bucket)
     (context ← scoped_wait_context (cv_ctor_fails ω) (context_at ω) bucket a;
      at_scope_exit (destroy_scoped_wait_context bucket context)
        (d ← memcmp a cmp n;
         if negb (d =? 0)%Z then mret tt else blocks bucket context))) σ
  = Ret tt (with_trace (trace σ ++ [ev_memcmp a n]) σ).
Proof.
  intros Hinv Hc Hlf Hcf Hn Hdiff. apply run_ret_eq.
  set (b := get_bucket_for a). set (c := context_at ω) in *.
  destruct (table_inv_lookup _ _ _ _ Hinv (get_bucket_for_lt a))
    as (bk & L & Hbk & HL & Hl & Hd). fold b in Hbk, HL, Hl.
  rewrite bool_decide_eq_false_2 in Hl by done.
  assert (b < length (m_wait_table σ)) as Hlt by (by eapply lookup_lt_Some).
  assert (c ∉ L.*1) as HcL.
  { intros Hin. destruct (dll_live _ _ _ _ _ Hd Hin) as [? ?]. congruence. }
  assert (head bk ≠ Some c) as Hhd.
  { intros Heq. rewrite Heq in Hd.
    apply dll_cons_inv in Hd as (? & ? & -> & _). apply HcL. by left. }
  simpl. unfold unique_lock. rewrite Hlf, Hcf.
  apply run_bind, (run_mutex_lock _ _ bk); [done|done|].
  apply run_scope_exit.
  apply run_bind, (run_scoped_wait_context _ _ (mk_bucket true (head bk)) L);
    [by apply list_lookup_insert_eq|done|done|].
  apply run_scope_exit. apply run_bind, run_memcmp; [done|].
  rewrite (proj2 (Z.eqb_neq _ 0));
    [|by rewrite memcmp_zero]. apply run_ret.
  set (h0 := <[c := mk_wait_context a None None]> (ctxs σ)).
  assert (h0 !! c = Some (mk_wait_context a None None)) as Hh0
    by apply lookup_insert_eq.
  assert (dll h0 None (head bk) L) as Hd0.
  { eapply dll_frame; [done|]. intros l Hl'. unfold h0.
    rewrite lookup_insert_ne; [done|]. by intros ->. }
  eapply (run_destroy_scoped_wait_context _ b (mk_bucket true (Some c))
            ((c, a) :: L) c).
  { simpl. rewrite list_insert_insert_eq. by apply list_lookup_insert_eq. }
  { simpl. by apply (dll_link_front h0 _ _ _ (mk_wait_context a None None)). }
  { by left. }
  { simpl. by apply link_front_lookup_self. }
  simpl. rewrite decide_True by done.
  rewrite (unlink_link_front h0 _ L _ (mk_wait_context a None None)) by done.
  eapply (run_mutex_unlock _ b (mk_bucket true (head bk))); [|done|].
  { simpl. rewrite !list_insert_insert_eq. by apply list_lookup_insert_eq. }
  split; [done|]. unfold with_table, with_trace, with_ctxs. simpl. f_equal.
  - unfold h0. rewrite insert_insert_eq. by apply delete_insert_id.
  - rewrite !list_insert_insert_eq. apply list_insert_id.
    rewrite Hbk. f_equal. destruct bk. simpl in *. by subst.
Qed.

Lemma wait_changed ω σ Ls a cmp n :
  table_inv None σ Ls → ctxs σ !! context_at ω = None →
  lock_fails ω = false → cv_ctor_fails ω = false →
  n ≤ length cmp → load σ a n ≠ take n cmp →
  wait ω a cmp n σ = Ret tt (with_trace (trace σ ++ [ev_memcmp a n]) σ).
Proof. apply (run_wait_changed (cv_wait ω)). Qed.

Lemma wait_for_changed ω σ Ls a cmp n ms :
  table_inv None σ Ls → ctxs σ !! context_at ω = None →
  lock_fails ω = false → cv_ctor_fails ω = false →
  n ≤ length cmp → load σ a n ≠ take n cmp →
  wait_for ω a cmp n ms σ = Ret tt (with_trace (trace σ ++ [ev_memcmp a n]) σ).
Proof.
  apply (run_wait_changed (λ b c, cv_wait_for ω b c ms;; mret tt)).
Qed.

End wait_immediate.

Lemma run_throw_eq {A} (m : M A) σ e σ' :
  run m σ (λ _ _, False) (λ e' σ'', e' = e ∧ σ'' = σ') → m σ = Throw e σ'.
Proof. unfold run. destruct (m σ); [done| |done]. by intros [-> ->]. Qed.

Section wait_fails.
Context `{P : platform}.

Lemma wait_lock_fails ω σ a cmp n :
  lock_fails ω = true → wait ω a cmp n σ = Throw system_error σ.
Proof. intros Hf. unfold wait, unique_lock. by rewrite Hf. Qed.

Lemma wait_for_lock_fails ω σ a cmp n ms :
  lock_fails ω = true → wait_for ω a cmp n ms σ = Throw system_error σ.
Proof. intros Hf. unfold wait_for, unique_lock. by rewrite Hf. Qed.

(** The condition variable of the context cannot be built: nothing was
    registered, and the mutex is released on the way out. *)
Lemma run_wait_ctor_fails (rest : positive → M unit) ω σ Ls a :
  table_inv None σ Ls → lock_fails ω = false → cv_ctor_fails ω = true →
  (let bucket := get_bucket_for a in
   unique_lock (lock_fails ω) bucket;;
   at_scope_exit (mutex_unlock bucket)
     (context ← scoped_wait_context (cv_ctor_fails ω) (context_at ω) bucket a;
      rest context)) σ
  = Throw system_error σ.
Proof.
  intros Hinv Hlf Hcf. apply run_throw_eq.
  destruct (table_inv_lookup _ _ _ _ Hinv (get_bucket_for_lt a))
    as (bk & L & Hbk & HL & Hl & Hd).
  rewrite bool_decide_eq_false_2 in Hl by done.
  simpl. unfold unique_lock. rewrite Hlf, Hcf.
  apply run_bind, (run_mutex_lock _ _ bk); [done|done|].
  apply run_scope_exit. unfold run at 1. simpl.
  apply (run_mutex_unlock _ _ (mk_bucket true (head bk))); [|done|].
  { simpl. apply list_lookup_insert_eq. by eapply lookup_lt_Some. }
  split; [done|]. unfold with_table. simpl.
  rewrite (table_relock_id _ _ bk) by done. apply state_eta.
Qed.

Lemma wait_ctor_fails ω σ Ls a cmp n :
  table_inv None σ Ls → lock_fails ω = false → cv_ctor_fails ω = true →
  wait ω a cmp n σ = Throw system_error σ.
Proof. apply run_wait_ctor_fails. Qed.

Lemma wait_for_ctor_fails ω σ Ls a cmp n ms :
  table_inv None σ Ls → lock_fails ω = false → cv_ctor_fails ω = true →
  wait_for ω a cmp n ms σ = Throw system_error σ.
Proof. apply run_wait_ctor_fails. Qed.

End wait_fails.

(** ** [wait] when the thread goes to sleep *)

Section wait_sleeps.
Context `{P : platform}.

Lemma run_interfere_any me ops σ Ls Q E :
  table_inv None σ Ls → env_ok me (dom (ctxs σ)) ops →
  (∀ σ', table_inv None σ' (abs_run ops Ls) → trace σ' = trace σ → Q tt σ') →
  run (interfere ops) σ Q E.
Proof.
  intros Hinv Hok HQ. eapply run_mono; [by eapply run_interfere| |done].
  by intros [].
Qed.

Lemma run_cv_wait ω σ Ls b c Q E :
  table_inv (Some b) σ Ls → b < N.to_nat k_wait_table_size →
  env_ok (Some c) (dom (ctxs σ)) (interference ω) →
  (∀ σ', table_inv (Some b) σ' (abs_run (interference ω) Ls) →
         trace σ' = trace σ ++ [ev_cv_wait c (woken_by ω)] → Q tt σ') →
  run (cv_wait ω b c) σ Q E.
Proof.
  intros Hinv Hb Hok HQ. unfold cv_wait.
  apply run_bind, run_log.
  apply run_bind, (run_mutex_unlock_inv _ Ls);
    [by apply table_inv_with_trace|done|].
  intros σ1 Hinv1 Htr1 _ Hh1.
  apply run_bind, (run_interfere_any (Some c) _ _ Ls); [done|by rewrite Hh1|].
  intros σ2 Hinv2 Htr2.
  apply (run_mutex_lock_inv _ (abs_run (interference ω) Ls)); [done|done|].
  intros σ3 Hinv3 Htr3 _ _. apply HQ; [done|]. by rewrite Htr3, Htr2, Htr1.
Qed.

Lemma run_cv_wait_for ω σ Ls b c ms Q E :
  table_inv (Some b) σ Ls → b < N.to_nat k_wait_table_size →
  env_ok (Some c) (dom (ctxs σ)) (interference ω) →
  (∀ σ', table_inv (Some b) σ' (abs_run (interference ω) Ls) →
         trace σ' = trace σ ++ [ev_cv_wait_for c ms (timed_woken_by ω)] →
         match timed_woken_by ω with
         | woke _ => Q no_timeout σ'
         | timed_out => Q timeout σ'
         | clock_failure => E timeout_exception σ'
         end) →
  run (cv_wait_for ω b c ms) σ Q E.
Proof.
  intros Hinv Hb Hok HQ. unfold cv_wait_for.
  apply run_bind, run_log.
  apply run_bind, (run_mutex_unlock_inv _ Ls);
    [by apply table_inv_with_trace|done|].
  intros σ1 Hinv1 Htr1 _ Hh1.
  apply run_bind, (run_interfere_any (Some c) _ _ Ls); [done|by rewrite Hh1|].
  intros σ2 Hinv2 Htr2.
  apply run_bind, (run_mutex_lock_inv _ (abs_run (interference ω) Ls));
    [done|done|].
  intros σ3 Hinv3 Htr3 _ _.
  assert (trace σ3 = trace σ ++ [ev_cv_wait_for c ms (timed_woken_by ω)])
    as Htr by (by rewrite Htr3, Htr2, Htr1).
  specialize (HQ σ3 Hinv3 Htr). by destruct (timed_woken_by ω).
Qed.

(** The common skeleton of the two overloads, for a blocking step [blocks]
    that leaves the event [ev] and ends as [ex] says. *)
Lemma run_wait_sleeps (blocks : nat → positive → M unit) ev ex ω σ Ls a cmp n :
  let F := λ σ', table_inv None σ' (lists_after_wait ω a Ls) ∧
                 trace σ' = trace σ ++ [ev_memcmp a n; ev] ∧
                 ctxs σ' !! context_at ω = None in
  table_inv None σ Ls → ctxs σ !! context_at ω = None →
  lock_fails ω = false → cv_ctor_fails ω = false →
  n ≤ length cmp → load σ a n = take n cmp →
  env_ok (Some (context_at ω)) ({[context_at ω]} ∪ dom (ctxs σ))
    (interference ω) →
  (∀ σ3 Ls3,
     table_inv (Some (get_bucket_for a)) σ3 Ls3 →
     env_ok (Some (context_at ω)) (dom (ctxs σ3)) (interference ω) →
     run (blocks (get_bucket_for a) (context_at ω)) σ3
       (λ _ σ4, ex = None ∧
                table_inv (Some (get_bucket_for a)) σ4
                  (abs_run (interference ω) Ls3) ∧
                trace σ4 = trace σ3 ++ [ev])
       (λ e σ4, ex = Some e ∧
                table_inv (Some (get_bucket_for a)) σ4
                  (abs_run (interference ω) Ls3) ∧
                trace σ4 = trace σ3 ++ [ev])) →
  run (let bucket := get_bucket_for a in
       unique_lock (lock_fails ω) bucket;;
       at_scope_exit (mutex_unlock bucket)
         (context ← scoped_wait_context (cv_ctor_fails ω) (context_at ω)
                      bucket a;
          at_scope_exit (destroy_scoped_wait_context bucket context)
            (d ← memcmp a cmp n;
             if negb (d =? 0)%Z then mret tt else blocks bucket context)))
    σ (λ _ σ', ex = None ∧ F σ') (λ e σ', ex = Some e ∧ F σ').
Proof.
  intros F Hinv Hc Hlf Hcf Hn Hsame Hok Hblocks.
  set (b := get_bucket_for a) in *. set (c := context_at ω) in *.
  assert (b < N.to_nat k_wait_table_size) as Hb by apply get_bucket_for_lt.
  destruct (table_inv_lookup _ _ _ _ Hinv Hb) as (bk & L & Hbk & HL & _).
  simpl. unfold unique_lock. rewrite Hlf, Hcf.
  apply run_bind, (run_mutex_lock_inv _ Ls); [done|done|].
  intros σ1 Hinv1 Htr1 Hmem1 Hh1. apply run_scope_exit.
  apply run_bind, (run_register_inv (Some b) _ Ls L);
    [done|done|by rewrite Hh1|].
  intros σ2 Hinv2 Htr2 Hmem2 Hdom2. apply run_scope_exit.
  apply run_bind, run_memcmp; [done|].
  assert (load σ2 a n = load σ a n) as ->.
  { unfold load. by rewrite Hmem2, Hmem1. }
  rewrite (proj2 (memcmp_zero σ a cmp n Hn)) by done. simpl.
  set (Ls2 := <[b := (c, a) :: L]> Ls) in *.
  set (σ3 := with_trace (trace σ2 ++ [ev_memcmp a n]) σ2).
  assert (table_inv (Some b) σ3 Ls2) as Hinv3 by by apply table_inv_with_trace.
  assert (env_ok (Some c) (dom (ctxs σ3)) (interference ω)) as Hok3.
  { simpl. by rewrite Hdom2, Hh1. }
  (* what remains once the blocking step is over *)
  assert (∀ σ4, table_inv (Some b) σ4 (abs_run (interference ω) Ls2) →
                trace σ4 = trace σ3 ++ [ev] →
                ∀ R : state → Prop, (∀ σ', F σ' → R σ') →
                run (destroy_scoped_wait_context b c) σ4
                  (λ _ σ5, run (mutex_unlock b) σ5 (λ _, R) no_throw)
                  no_throw) as Hleave.
  { intros σ4 Hinv4 Htr4 R HR.
    destruct (abs_run_keeps c a (interference ω) ({[c]} ∪ dom (ctxs σ)) Ls2 b
                ((c, a) :: L)) as (L4 & HL4 & Hin4).
    { done. }
    { apply elem_of_union. left. by apply elem_of_singleton. }
    { apply list_lookup_insert_eq. by eapply lookup_lt_Some. }
    { by left. }
    assert (c ∈ L4.*1) as Hc4.
    { apply list_elem_of_fmap. by exists (c, a). }
    apply (run_destroy_inv (Some b) _ (abs_run (interference ω) Ls2) b L4 c);
      [done|done|done|].
    intros σ5 Hinv5 Htr5 _ Hdom5.
    eapply run_mutex_unlock_inv; [done|done|].
    intros σ6 Hinv6 Htr6 _ Hh6. apply HR. unfold F. split; [|split].
    - assert (lists_after_wait ω a Ls =
              <[b := filter (λ ca, ca.1 ≠ c) L4]>
                (abs_run (interference ω) Ls2)) as ->; [|done].
      rewrite <- (abs_unregister_eq _ _ _ _ _ _ Hinv4 HL4 Hc4).
      unfold lists_after_wait, abs_run. simpl. rewrite foldl_app. simpl.
      by rewrite (list_alter_lookup_insert _ _ _ L).
    - rewrite Htr6, Htr5, Htr4. unfold σ3. simpl.
      rewrite Htr2, Htr1, <- app_assoc. done.
    - rewrite Hh6. apply not_elem_of_dom. rewrite Hdom5.
      intros [_ Hnot]%elem_of_difference. apply Hnot.
      by apply elem_of_singleton. }
  eapply run_mono; [by apply (Hblocks σ3 Ls2)| |].
  - intros [] σ4 (Hex & Hinv4 & Htr4). apply (Hleave σ4 Hinv4 Htr4). eauto.
  - intros e σ4 (Hex & Hinv4 & Htr4). apply (Hleave σ4 Hinv4 Htr4). eauto.
Qed.

End wait_sleeps.

Section wait_sleeps_overloads.
Context `{P : platform}.

Lemma wait_sleeps ω σ Ls a cmp n :
  table_inv None σ Ls → ctxs σ !! context_at ω = None →
  lock_fails ω = false → cv_ctor_fails ω = false →
  n ≤ length cmp → load σ a n = take n cmp →
  env_ok (Some (context_at ω)) ({[context_at ω]} ∪ dom (ctxs σ))
    (interference ω) →
  ∃ σ', wait ω a cmp n σ = Ret tt σ' ∧
        table_inv None σ' (lists_after_wait ω a Ls) ∧
        trace σ' = trace σ ++
          [ev_memcmp a n; ev_cv_wait (context_at ω) (woken_by ω)] ∧
        ctxs σ' !! context_at ω = None.
Proof.
  intros Hinv Hc Hlf Hcf Hn Hsame Hok.
  eassert (run (wait ω a cmp n) σ _ _) as Hrun.
  { apply (run_wait_sleeps (cv_wait ω)
             (ev_cv_wait (context_at ω) (woken_by ω)) None
             ω σ Ls a cmp n Hinv Hc Hlf Hcf Hn Hsame Hok).
    intros σ3 Ls3 Hinv3 Hok3.
    apply (run_cv_wait _ _ Ls3); [done|apply get_bucket_for_lt|done|].
    by intros σ4 Hinv4 Htr4. }
  unfold run in Hrun.
  destruct (wait ω a cmp n σ) as [[] σ'|e σ'|]; [|by destruct Hrun|done].
  exists σ'. by destruct Hrun as [_ ?].
Qed.

Lemma wait_for_sleeps ω σ Ls a cmp n ms :
  table_inv None σ Ls → ctxs σ !! context_at ω = None →
  lock_fails ω = false → cv_ctor_fails ω = false →
  n ≤ length cmp → load σ a n = take n cmp →
  env_ok (Some (context_at ω)) ({[context_at ω]} ∪ dom (ctxs σ))
    (interference ω) →
  ∃ σ', wait_for ω a cmp n ms σ = ends_as (timed_woken_by ω) σ' ∧
        table_inv None σ' (lists_after_wait ω a Ls) ∧
        trace σ' = trace σ ++
          [ev_memcmp a n;
           ev_cv_wait_for (context_at ω) ms (timed_woken_by ω)] ∧
        ctxs σ' !! context_at ω = None.
Proof.
  intros Hinv Hc Hlf Hcf Hn Hsame Hok.
  eassert (run (wait_for ω a cmp n ms) σ _ _) as Hrun.
  { apply (run_wait_sleeps (λ b c, cv_wait_for ω b c ms;; mret tt)
             (ev_cv_wait_for (context_at ω) ms (timed_woken_by ω))
             (match timed_woken_by ω with
              | clock_failure => Some timeout_exception
              | _ => None
              end)
             ω σ Ls a cmp n Hinv Hc Hlf Hcf Hn Hsame Hok).
    intros σ3 Ls3 Hinv3 Hok3.
    apply run_bind, (run_cv_wait_for _ _ Ls3);
      [done|apply get_bucket_for_lt|done|].
    intros σ4 Hinv4 Htr4. by destruct (timed_woken_by ω). }
  unfold run in Hrun.
  destruct (wait_for ω a cmp n ms σ) as [[] σ'|e σ'|]; [| |done].
  - exists σ'. destruct Hrun as [Hex ?]. split; [|done].
    by destruct (timed_woken_by ω).
  - exists σ'. destruct Hrun as [Hex ?]. split; [|done].
    destruct (timed_woken_by ω); try done. by injection Hex as <-.
Qed.

End wait_sleeps_overloads.

(** ** Events of the scans *)

Lemma signalled_app tr1 tr2 :
  signalled (tr1 ++ tr2) = signalled tr1 ++ signalled tr2.
Proof. apply omap_app. Qed.

Lemma examined_app tr1 tr2 :
  examined (tr1 ++ tr2) = examined tr1 ++ examined tr2.
Proof. apply omap_app. Qed.

Lemma signalled_cons e tr :
  signalled (e :: tr) =
  match e with ev_cv_notify_all c => c :: signalled tr | _ => signalled tr end.
Proof. by destruct e. Qed.

Lemma examined_cons e tr :
  examined (e :: tr) =
  match e with ev_examine c => c :: examined tr | _ => examined tr end.
Proof. by destruct e. Qed.

Lemma one_events_no_match a L :
  (∀ ca, ca ∈ L → ca.2 ≠ a) →
  signalled (one_events a L) = [] ∧ examined (one_events a L) = L.*1.
Proof.
  induction L as [|[c a'] L IH]; intros Hno; [done|].
  cbn [one_events fst snd].
  destruct (N.eqb_spec a' a) as [->|Hne].
  - exfalso. by apply (Hno (c, a)); [left|].
  - destruct IH as [IH1 IH2]; [intros ca Hca; apply Hno; by right|].
    by rewrite signalled_cons, examined_cons, IH1, IH2.
Qed.

Lemma one_events_first_match a A c B :
  (∀ ca, ca ∈ A → ca.2 ≠ a) →
  signalled (one_events a (A ++ (c, a) :: B)) = [c] ∧
  examined (one_events a (A ++ (c, a) :: B)) = A.*1 ++ [c].
Proof.
  induction A as [|[c' a'] A IH]; intros Hno; cbn [app one_events fst snd].
  - by rewrite N.eqb_refl.
  - destruct (N.eqb_spec a' a) as [->|Hne].
    + exfalso. by apply (Hno (c', a)); [left|].
    + destruct IH as [IH1 IH2]; [intros ca Hca; apply Hno; by right|].
      by rewrite signalled_cons, examined_cons, IH1, IH2.
Qed.

Lemma all_events_spec a L :
  signalled (all_events a L) = (filter (λ ca, ca.2 = a) L).*1 ∧
  examined (all_events a L) = L.*1.
Proof.
  induction L as [|[c a'] L [IH1 IH2]]; [done|].
  cbn [all_events fst snd].
  destruct (N.eqb_spec a' a) as [->|Hne]; cbn [app].
  - rewrite filter_cons_True by done.
    by rewrite !signalled_cons, !examined_cons, IH1, IH2.
  - rewrite filter_cons_False by done.
    by rewrite !signalled_cons, !examined_cons, IH1, IH2.
Qed.

(** The scan of [notify_one] signals a context watching [a] and nothing
    else. *)
Lemma one_events_signalled a L c :
  c ∈ signalled (one_events a L) → (c, a) ∈ L.
Proof.
  induction L as [|[c' a'] L IH]; [by intros ?%elem_of_nil|].
  cbn [one_events fst snd]. rewrite signalled_cons.
  destruct (N.eqb_spec a' a) as [->|Hne].
  - intros ->%list_elem_of_singleton. by left.
  - intros Hc. right. by apply IH.
Qed.

(** With a context watching [a] in the list, the one signalled is it or one
    in front of it. *)
Lemma one_events_front a A c B :
  ∃ c', signalled (one_events a (A ++ (c, a) :: B)) = [c'] ∧
        (c' = c ∨ (c', a) ∈ A).
Proof.
  induction A as [|[x ax] A (c' & IH1 & IH2)]; cbn [app one_events fst snd].
  - exists c. rewrite N.eqb_refl. by split; [|left].
  - rewrite signalled_cons. destruct (N.eqb_spec ax a) as [->|Hne].
    + exists x. split; [done|]. right. by left.
    + exists c'. split; [done|]. destruct IH2 as [->|Hin]; [by left|].
      right. by right.
Qed.

(** ** Who is linked where *)

Section linked.
Context `{P : platform}.

Lemma not_linked_dead σ b c : ctxs σ !! c = None → ¬ linked_in σ b c.
Proof.
  intros Hc (bk & L & _ & Hd & Hin).
  destruct (dll_live _ _ _ _ _ Hd Hin) as [? ?]. congruence.
Qed.


Lemma empty_table_inv : table_inv None empty_state empty_lists.
Proof.
  constructor; unfold empty_state, empty_lists; cbn [m_wait_table ctxs].
  - apply length_replicate.
  - apply length_replicate.
  - intros i bk L [-> _]%lookup_replicate [-> _]%lookup_replicate. done.
  - intros i L ca [-> _]%lookup_replicate Hin. by apply elem_of_nil in Hin.
  - intros c [x Hx]. by rewrite lookup_empty in Hx.
Qed.

(** Contexts in front of a registered context were registered after it. *)
Lemma abs_run_front c a later : ∀ live Ls b A B,
  env_ok (Some c) live later → c ∈ live →
  Ls !! b = Some (A ++ (c, a) :: B) →
  ∃ A' B', abs_run later Ls !! b = Some (A' ++ (c, a) :: B') ∧
           ∀ ca, ca ∈ A' → ca ∈ A ∨ other_registers ca.1 ca.2 ∈ later.
Proof.
  induction later as [|op later IH]; intros live Ls b A B Hok Hc HL.
  { exists A, B. split; [done|]. by left. }
  destruct op as [c' a'|c'|a'|a'|a' v]; simpl in Hok |- *.
  - destruct Hok as [Hc' Hok].
    assert (c ∈ ({[c']} ∪ live : gset positive)) as Hc2.
    { apply elem_of_union. by right. }
    destruct (decide (get_bucket_for a' = b)) as [Hb|Hb].
    + destruct (IH _ (alter (cons (c', a')) (get_bucket_for a') Ls) b
                  ((c', a') :: A) B Hok Hc2) as (A' & B' & HL' & HA').
      { by rewrite Hb, list_lookup_alter_eq, HL. }
      exists A', B'. split; [done|]. intros ca Hca.
      destruct (HA' ca Hca) as [[->|Hin]%elem_of_cons|Hin].
      * right. by left.
      * by left.
      * right. by right.
    + destruct (IH _ (alter (cons (c', a')) (get_bucket_for a') Ls) b A B
                  Hok Hc2) as (A' & B' & HL' & HA').
      { by rewrite list_lookup_alter_ne. }
      exists A', B'. split; [done|]. intros ca Hca.
      destruct (HA' ca Hca) as [Hin|Hin]; [by left|right; by right].
  - destruct Hok as (Hc' & Hne & Hok).
    assert (c ∈ (live ∖ {[c']} : gset positive)) as Hc2.
    { apply elem_of_difference. split; [done|].
      rewrite elem_of_singleton. congruence. }
    destruct (IH _ (filter (λ ca, ca.1 ≠ c') <$> Ls) b
                (filter (λ ca, ca.1 ≠ c') A) (filter (λ ca, ca.1 ≠ c') B)
                Hok Hc2) as (A' & B' & HL' & HA').
    { rewrite list_lookup_fmap, HL. simpl. f_equal.
      rewrite filter_app, filter_cons_True; [done|]. simpl. congruence. }
    exists A', B'. split; [done|]. intros ca Hca.
    destruct (HA' ca Hca) as [[_ Hin]%list_elem_of_filter|Hin];
      [by left|right; by right].
  - destruct (IH live Ls b A B Hok Hc HL) as (A' & B' & HL' & HA').
    exists A', B'. split; [done|]. intros ca Hca.
    destruct (HA' ca Hca) as [Hin|Hin]; [by left|right; by right].
  - destruct (IH live Ls b A B Hok Hc HL) as (A' & B' & HL' & HA').
    exists A', B'. split; [done|]. intros ca Hca.
    destruct (HA' ca Hca) as [Hin|Hin]; [by left|right; by right].
  - destruct (IH live Ls b A B Hok Hc HL) as (A' & B' & HL' & HA').
    exists A', B'. split; [done|]. intros ca Hca.
    destruct (HA' ca Hca) as [Hin|Hin]; [by left|right; by right].
Qed.

End linked.

(** ** What a scan leaves alone *)

(** The scans write nothing but the trace, on any heap. *)
Lemma notify_one_loop_frame a fuel : ∀ cur σ,
  match notify_one_loop fuel a cur σ with
  | Ret _ σ' | Throw _ σ' => ∃ tr, σ' = with_trace tr σ
  | Stuck => True
  end.
Proof.
  induction fuel as [|fuel IH]; intros [c|] σ; simpl;
    unfold mret, M_ret, ret; try done;
    try (exists (trace σ); symmetry; apply state_eta).
  unfold mbind, M_bind, bind, get_ctx. destruct (ctxs σ !! c) as [x|]; [|done].
  simpl. destruct (storage_ptr x =? a)%N.
  - by eexists.
  - specialize (IH (next x) (with_trace (trace σ ++ [ev_examine c]) σ)).
    destruct (notify_one_loop fuel a (next x) _) as [[] σ'|e σ'|]; [| |done].
    + destruct IH as [tr ->]. by exists tr.
    + destruct IH as [tr ->]. by exists tr.
Qed.

Lemma notify_all_loop_frame a fuel : ∀ cur σ,
  match notify_all_loop fuel a cur σ with
  | Ret _ σ' | Throw _ σ' => ∃ tr, σ' = with_trace tr σ
  | Stuck => True
  end.
Proof.
  induction fuel as [|fuel IH]; intros [c|] σ; simpl;
    unfold mret, M_ret, ret; try done;
    try (exists (trace σ); symmetry; apply state_eta).
  unfold mbind, M_bind, bind, get_ctx. destruct (ctxs σ !! c) as [x|]; [|done].
  simpl. destruct (storage_ptr x =? a)%N; simpl.
  - specialize (IH (next x)
      (with_trace ((trace σ ++ [ev_examine c]) ++ [ev_cv_notify_all c]) σ)).
    destruct (notify_all_loop fuel a (next x) _) as [[] σ'|e σ'|]; [| |done].
    + destruct IH as [tr ->]. by exists tr.
    + destruct IH as [tr ->]. by exists tr.
  - specialize (IH (next x) (with_trace (trace σ ++ [ev_examine c]) σ)).
    destruct (notify_all_loop fuel a (next x) _) as [[] σ'|e σ'|]; [| |done].
    + destruct IH as [tr ->]. by exists tr.
    + destruct IH as [tr ->]. by exists tr.
Qed.

(** A scan under the bucket mutex leaves table and contexts as they are. *)
Lemma locked_scan_frame (scan : nat → option positive → M unit) fails b σ :
  (∀ fuel cur σ0,
     match scan fuel cur σ0 with
     | Ret _ σ' | Throw _ σ' => ∃ tr, σ' = with_trace tr σ0
     | Stuck => True
     end) →
  match (unique_lock fails b;;
         at_scope_exit (mutex_unlock b)
           (hd ← get_head b; fuel ← scan_bound; scan fuel hd)) σ with
  | Ret _ σ' | Throw _ σ' =>
      m_wait_table σ' = m_wait_table σ ∧ ctxs σ' = ctxs σ
  | Stuck => True
  end.
Proof.
  intros Hscan. unfold unique_lock, mbind, M_bind, bind.
  destruct fails; [done|]. unfold mutex_lock, mbind, M_bind, bind, get_bucket.
  destruct (m_wait_table σ !! b) as [bk|] eqn:Hbk; [|done].
  destruct (lock bk) eqn:Hl; [done|]. unfold put_bucket. rewrite Hbk.
  assert (b < length (m_wait_table σ)) as Hlt by (by eapply lookup_lt_Some).
  unfold at_scope_exit, get_head, mbind, M_bind, bind, get_bucket, scan_bound.
  simpl. rewrite list_lookup_insert_eq by done. simpl.
  set (σ1 := with_table _ σ).
  specialize (Hscan (size (ctxs σ)) (head bk) σ1).
  destruct (scan (size (ctxs σ)) (head bk) σ1) as [[] σ'|e σ'|]; [| |done].
  - destruct Hscan as [tr ->]. unfold mutex_unlock, mbind, M_bind, bind,
      get_bucket, put_bucket. simpl.
    rewrite list_lookup_insert_eq by done. simpl.
    rewrite list_lookup_insert_eq by done.
    split; [|done]. simpl. by apply (table_relock_id _ _ bk).
  - destruct Hscan as [tr ->]. unfold mutex_unlock, mbind, M_bind, bind,
      get_bucket, put_bucket. simpl.
    rewrite list_lookup_insert_eq by done. simpl.
    rewrite list_lookup_insert_eq by done.
    split; [|done]. simpl. by apply (table_relock_id _ _ bk).
Qed.

(** ** Every way a call to [wait] can go *)

Section wait_cases.
Context `{P : platform}.

Lemma wait_cases ω σ Ls a cmp n :
  table_inv None σ Ls → ctxs σ !! context_at ω = None → n ≤ length cmp →
  env_ok (Some (context_at ω)) ({[context_at ω]} ∪ dom (ctxs σ))
    (interference ω) →
  ((lock_fails ω = true ∨ cv_ctor_fails ω = true) ∧
   wait ω a cmp n σ = Throw system_error σ) ∨
  (lock_fails ω = false ∧ cv_ctor_fails ω = false ∧
   load σ a n ≠ take n cmp ∧
   wait ω a cmp n σ = Ret tt (with_trace (trace σ ++ [ev_memcmp a n]) σ)) ∨
  (lock_fails ω = false ∧ cv_ctor_fails ω = false ∧
   load σ a n = take n cmp ∧
   ∃ σ', wait ω a cmp n σ = Ret tt σ' ∧
         table_inv None σ' (lists_after_wait ω a Ls) ∧
         trace σ' = trace σ ++
           [ev_memcmp a n; ev_cv_wait (context_at ω) (woken_by ω)] ∧
         ctxs σ' !! context_at ω = None).
Proof.
  intros Hinv Hc Hn Hok.
  destruct (lock_fails ω) eqn:Hlf.
  { left. split; [by left|]. by apply wait_lock_fails. }
  destruct (cv_ctor_fails ω) eqn:Hcf.
  { left. split; [by right|]. by eapply wait_ctor_fails. }
  right. destruct (decide (load σ a n = take n cmp)) as [Heq|Hne].
  - right. repeat split; try done. by apply wait_sleeps.
  - left. repeat split; try done. by eapply wait_changed.
Qed.

Lemma wait_for_cases ω σ Ls a cmp n ms :
  table_inv None σ Ls → ctxs σ !! context_at ω = None → n ≤ length cmp →
  env_ok (Some (context_at ω)) ({[context_at ω]} ∪ dom (ctxs σ))
    (interference ω) →
  ((lock_fails ω = true ∨ cv_ctor_fails ω = true) ∧
   wait_for ω a cmp n ms σ = Throw system_error σ) ∨
  (lock_fails ω = false ∧ cv_ctor_fails ω = false ∧
   load σ a n ≠ take n cmp ∧
   wait_for ω a cmp n ms σ =
     Ret tt (with_trace (trace σ ++ [ev_memcmp a n]) σ)) ∨
  (lock_fails ω = false ∧ cv_ctor_fails ω = false ∧
   load σ a n = take n cmp ∧
   ∃ σ', wait_for ω a cmp n ms σ = ends_as (timed_woken_by ω) σ' ∧
         table_inv None σ' (lists_after_wait ω a Ls) ∧
         trace σ' = trace σ ++
           [ev_memcmp a n;
            ev_cv_wait_for (context_at ω) ms (timed_woken_by ω)] ∧
         ctxs σ' !! context_at ω = None).
Proof.
  intros Hinv Hc Hn Hok.
  destruct (lock_fails ω) eqn:Hlf.
  { left. split; [by left|]. by apply wait_for_lock_fails. }
  destruct (cv_ctor_fails ω) eqn:Hcf.
  { left. split; [by right|]. by eapply wait_for_ctor_fails. }
  right. destruct (decide (load σ a n = take n cmp)) as [Heq|Hne].
  - right. repeat split; try done. by apply wait_for_sleeps.
  - left. repeat split; try done. by eapply wait_for_changed.
Qed.



End wait_cases.

(** ** What a sleeping call leaves behind, and its two halves *)

Lemma filter_fst_ne_comm (L : list (positive * N)) c c' :
  filter (λ ca, ca.1 ≠ c) (filter (λ ca, ca.1 ≠ c') L) =
  filter (λ ca, ca.1 ≠ c') (filter (λ ca, ca.1 ≠ c) L).
Proof.
  induction L as [|[l a] L IH]; [done|].
  destruct (decide (l = c)) as [Hc|Hc]; destruct (decide (l = c')) as [Hc'|Hc'].
  - rewrite (filter_cons_False (λ ca, ca.1 ≠ c')) by (simpl; tauto).
    rewrite (filter_cons_False (λ ca, ca.1 ≠ c)) by (simpl; tauto). done.
  - rewrite (filter_cons_True (λ ca, ca.1 ≠ c')) by done.
    rewrite !(filter_cons_False (λ ca, ca.1 ≠ c)) by (simpl; tauto). done.
  - rewrite (filter_cons_True (λ ca, ca.1 ≠ c)) by done.
    rewrite !(filter_cons_False (λ ca, ca.1 ≠ c')) by (simpl; tauto). done.
  - rewrite (filter_cons_True (λ ca, ca.1 ≠ c')) by done.
    rewrite !(filter_cons_True (λ ca, ca.1 ≠ c)) by done.
    rewrite (filter_cons_True (λ ca, ca.1 ≠ c')) by done. by rewrite IH.
Qed.

Section transparent.
Context `{P : platform}.

(** Dropping a context from every list commutes with the steps of threads
    that never register it. *)
Lemma abs_run_filter_comm c ops : ∀ live Ls,
  env_ok (Some c) live ops → c ∈ live →
  filter (λ ca, ca.1 ≠ c) <$> abs_run ops Ls =
  abs_run ops (filter (λ ca, ca.1 ≠ c) <$> Ls).
Proof.
  induction ops as [|op ops IH]; intros live Ls Hok Hc; [done|].
  destruct op as [c' a'|c'|a'|a'|a' v]; simpl in Hok.
  - destruct Hok as [Hc' Hok].
    assert (c' ≠ c) as Hne by (by intros ->).
    change (abs_run (other_registers c' a' :: ops) ?X)
      with (abs_run ops (alter (cons (c', a')) (get_bucket_for a') X)).
    rewrite (IH ({[c']} ∪ live)); [|done|apply elem_of_union; by right].
    f_equal. apply list_eq. intros i. rewrite list_lookup_fmap.
    destruct (decide (get_bucket_for a' = i)) as [<-|Hi].
    + rewrite !list_lookup_alter_eq, list_lookup_fmap.
      destruct (Ls !! get_bucket_for a') as [L|]; [|done]. simpl.
      by rewrite filter_cons_True.
    + by rewrite !list_lookup_alter_ne, list_lookup_fmap.
  - destruct Hok as (Hc' & Hne & Hok).
    change (abs_run (other_unregisters c' :: ops) ?X)
      with (abs_run ops (filter (λ ca, ca.1 ≠ c') <$> X)).
    rewrite (IH (live ∖ {[c']})); [|done|].
    + f_equal. rewrite <- !list_fmap_compose. apply list_fmap_ext.
      intros i L _. simpl. apply filter_fst_ne_comm.
    + apply elem_of_difference. split; [done|].
      rewrite elem_of_singleton. congruence.
  - by apply (IH live).
  - by apply (IH live).
  - by apply (IH live).
Qed.

(** When the call returns, its context has left no mark on the lists. *)
Lemma lists_after_wait_transparent ω σ Ls a :
  table_inv None σ Ls → ctxs σ !! context_at ω = None →
  env_ok (Some (context_at ω)) ({[context_at ω]} ∪ dom (ctxs σ))
    (interference ω) →
  lists_after_wait ω a Ls = abs_run (interference ω) Ls.
Proof.
  intros Hinv Hc Hok. set (c := context_at ω) in *.
  transitivity
    (filter (λ ca, ca.1 ≠ c) <$>
     abs_run (interference ω) (alter (cons (c, a)) (get_bucket_for a) Ls)).
  { unfold lists_after_wait, abs_run. simpl. by rewrite foldl_app. }
  rewrite (abs_run_filter_comm c _ ({[c]} ∪ dom (ctxs σ))); [|done|].
  2: { apply elem_of_union. left. by apply elem_of_singleton. }
  f_equal. apply list_eq. intros i. rewrite list_lookup_fmap.
  assert (∀ L, Ls !! i = Some L → filter (λ ca, ca.1 ≠ c) L = L) as Hfresh.
  { intros L HL. apply filter_fst_ne_id. intros Hin.
    destruct (table_inv_dll _ _ _ _ _ Hinv HL) as (bk & _ & Hd).
    destruct (dll_live _ _ _ _ _ Hd Hin) as [? ?]. congruence. }
  destruct (decide (get_bucket_for a = i)) as [<-|Hi].
  - rewrite list_lookup_alter_eq.
    destruct (Ls !! get_bucket_for a) as [L|] eqn:HL; [|done]. simpl.
    rewrite filter_cons_False by (simpl; tauto). by rewrite Hfresh.
  - rewrite list_lookup_alter_ne by done.
    destruct (Ls !! i) as [L|] eqn:HL; [|done]. simpl. by rewrite Hfresh.
Qed.

End transparent.

Section factors.
Context `{P : platform}.





End factors.

(** * The claims *)

(** ** The native back ends *)

Section native.
Local Open Scope Z_scope.

(** C7.  For every millisecond count [ms] a [size_t] can hold,
    [ms_to_time_spec] returns [tv_sec = ms / 1000] and
    [tv_nsec = (ms mod 1000) * 1000000]; so the conversion is exact,
    [tv_sec * 1000 + tv_nsec / 1000000 = ms], and [tv_nsec] lies in
    [0, 1000000000). *)
Theorem ms_to_time_spec_exact (ms : Z) :
  Int.is_size_t ms →
  Futex.tv_sec (Futex.ms_to_time_spec ms) = ms / 1000 ∧
  Futex.tv_nsec (Futex.ms_to_time_spec ms) = (ms mod 1000) * 1000000 ∧
  Futex.tv_sec (Futex.ms_to_time_spec ms) * 1000 +
    Futex.tv_nsec (Futex.ms_to_time_spec ms) / 1000000 = ms ∧
  0 ≤ Futex.tv_nsec (Futex.ms_to_time_spec ms) < 1000000000.
Proof.
  unfold Int.is_size_t. intros Hms.
  assert (0 ≤ ms / 1000 < 2 ^ 63) as Hsec.
  { split; [apply Z.div_pos; lia|apply Z.div_lt_upper_bound; lia]. }
  assert (0 ≤ ms mod 1000 < 1000) as Hrem by (apply Z.mod_pos_bound; lia).
  assert (Futex.tv_sec (Futex.ms_to_time_spec ms) = ms / 1000) as Hs.
  { simpl. unfold Futex.static_cast_time_t, Int.to_signed.
    rewrite Z.mod_small by lia.
    destruct (Z.ltb_spec (ms / 1000) (2 ^ (64 - 1))); [done|lia]. }
  assert (Futex.tv_nsec (Futex.ms_to_time_spec ms) = ms mod 1000 * 1000000)
    as Hn.
  { simpl. unfold Futex.to_long, Futex.size_t_mul, Int.to_signed,
      Int.to_unsigned.
    rewrite (Z.mod_small (ms mod 1000 * 1000000)) by lia.
    rewrite Z.mod_small by lia.
    destruct (Z.ltb_spec (ms mod 1000 * 1000000) (2 ^ (64 - 1))); [done|lia]. }
  rewrite Hs, Hn. repeat split; try lia.
  rewrite Z.div_mul by lia. pose proof (Z.div_mod ms 1000). lia.
Qed.

Lemma ms_to_time_spec_exact_witness :
  Int.is_size_t 1500 ∧
  Futex.ms_to_time_spec 1500 = Futex.mk_timespec 1 500000000.
Proof.
  assert (Int.is_size_t 1500) as H by (unfold Int.is_size_t; lia).
  split; [exact H|].
  destruct (ms_to_time_spec_exact 1500 H) as (Hs & Hn & _).
  destruct (Futex.ms_to_time_spec 1500) as [s n]. simpl in Hs, Hn.
  by rewrite Hs, Hn.
Defined.

(** C8, as stated, fails: a timeout of 2^32 ms is representable and reaches
    [WaitOnAddress] as 0. *)
Lemma wait_on_address_timeout_truncated :
  Int.is_ms_rep 4294967296 ∧
  AddressWait.timeout_of
    (AddressWait.atomic_wait_for_native 0 0 4294967296) = Some 0 ∧
  AddressWait.timeout_of
    (AddressWait.atomic_wait_for_native 0 0 4294967296) ≠ Some 4294967296.
Proof. unfold Int.is_ms_rep. split; [lia|]. by split. Qed.

(** C8, amended.  The timeout handed to [WaitOnAddress] is [ms.count()]
    converted to the 32-bit [DWORD], that is [ms.count() mod 2^32]; it equals
    [ms.count()] exactly when [0 <= ms.count() < 2^32]. *)
Theorem wait_on_address_timeout (atom old ms : Z) :
  AddressWait.timeout_of (AddressWait.atomic_wait_for_native atom old ms)
    = Some (ms mod 2 ^ 32) ∧
  (AddressWait.timeout_of (AddressWait.atomic_wait_for_native atom old ms)
     = Some ms ↔ 0 ≤ ms < 2 ^ 32).
Proof.
  split; [done|]. simpl. unfold AddressWait.static_cast_DWORD, Int.to_unsigned.
  split.
  - intros [= Heq]. rewrite <- Heq. apply Z.mod_pos_bound. lia.
  - intros Hms. by rewrite Z.mod_small.
Qed.

End native.

(** ** The fallback engine *)

Section fallback_claims.
Context `{P : platform}.

(** C1.  When the lock is taken, the context built, and the bytes at the
    watched address differ from the comparand at the comparison, [wait] and
    its bounded overload return at once: the only effect of the call is the
    comparison, so the thread never waits on the condition variable, and
    on return the context is linked into no bucket and the table is as it
    was. *)
Theorem wait_returns_at_once_when_value_differs ω σ Ls a cmp n ms :
  table_inv None σ Ls → ctxs σ !! context_at ω = None →
  lock_fails ω = false → cv_ctor_fails ω = false →
  n ≤ length cmp → load σ a n ≠ take n cmp →
  ∃ σ', wait ω a cmp n σ = Ret tt σ' ∧
        wait_for ω a cmp n ms σ = Ret tt σ' ∧
        trace σ' = trace σ ++ [ev_memcmp a n] ∧
        (∀ e, e ∈ drop (length (trace σ)) (trace σ') → is_cv_wait e = false) ∧
        (∀ b, ¬ linked_in σ' b (context_at ω)) ∧
        table_inv None σ' Ls.
Proof.
  intros Hinv Hc Hlf Hcf Hn Hdiff.
  exists (with_trace (trace σ ++ [ev_memcmp a n]) σ).
  split; [by eapply wait_changed|]. split; [by eapply wait_for_changed|].
  split; [done|]. split; [|split].
  - simpl. rewrite drop_app_length. by intros e ->%list_elem_of_singleton.
  - intros b. by apply not_linked_dead.
  - by apply table_inv_with_trace.
Qed.

(** C10.  On a well-formed bucket list [L] and a context [c] with null
    links that is not in [L], [remove_wait_ctx c] right after
    [push_front_wait_ctx c] gives back the bucket as it was: the same head,
    and every context other than [c] - in particular the former head with
    its [prev] link - unchanged, so the list is [L] again.  Hence a [wait]
    that returns because the value already differs leaves the table and the
    live contexts exactly as it found them. *)
Theorem remove_after_push_front_restores
    σ b bk L c x ω Ls a cmp n ms :
  (m_wait_table σ !! b = Some bk → dll (ctxs σ) None (head bk) L →
   ctxs σ !! c = Some x → next x = None → prev x = None → c ∉ L.*1 →
   ∃ σ', (push_front_wait_ctx b c;; remove_wait_ctx b c) σ = Ret tt σ' ∧
         m_wait_table σ' = m_wait_table σ ∧
         (∀ l, l ≠ c → ctxs σ' !! l = ctxs σ !! l) ∧
         dll (ctxs σ') None (head bk) L) ∧
  (table_inv None σ Ls → ctxs σ !! context_at ω = None →
   lock_fails ω = false → cv_ctor_fails ω = false →
   n ≤ length cmp → load σ a n ≠ take n cmp →
   ∃ σ', wait ω a cmp n σ = Ret tt σ' ∧
         wait_for ω a cmp n ms σ = Ret tt σ' ∧
         m_wait_table σ' = m_wait_table σ ∧ ctxs σ' = ctxs σ).
Proof.
  split.
  - intros Hbk Hd Hx Hn Hp Hc.
    assert (head bk ≠ Some c) as Hhd.
    { intros Heq. rewrite Heq in Hd.
      apply dll_cons_inv in Hd as (? & ? & -> & _). apply Hc. by left. }
    assert (b < length (m_wait_table σ)) as Hlt by (by eapply lookup_lt_Some).
    exists (with_ctxs (<[c := upd_next (head bk) x]> (ctxs σ)) σ).
    split; [|split; [done|split]].
    + apply run_ret_eq.
      apply run_bind, (run_push_front _ b bk c x L); try done.
      eapply (run_remove _ b (mk_bucket (lock bk) (Some c)) c
                (upd_next (head bk) x) ((c, storage_ptr x) :: L)).
      { simpl. by apply list_lookup_insert_eq. }
      { simpl. by apply dll_link_front. }
      { by left. }
      { simpl. by apply link_front_lookup_self. }
      split; [done|]. simpl. rewrite decide_True by done.
      rewrite (unlink_link_front _ _ L _ x) by done.
      unfold with_table, with_ctxs. simpl.
      rewrite list_insert_insert_eq, bucket_eta, list_insert_id by done.
      done.
    + intros l Hl. simpl. by rewrite lookup_insert_ne.
    + simpl. eapply dll_frame; [done|]. intros l Hl.
      rewrite lookup_insert_ne; [done|]. by intros ->.
  - intros Hinv Hc Hlf Hcf Hn Hdiff.
    exists (with_trace (trace σ ++ [ev_memcmp a n]) σ).
    split; [by eapply wait_changed|]. split; [by eapply wait_for_changed|].
    done.
Qed.

(** C9.  [notify_one] and [notify_all] leave the table and every context
    as they are - the head of every bucket and the [next] and [prev] links
    of every context - whether they return or fail to take the lock; this
    holds from any state, and on a well-formed table they do end in one of
    these two ways. *)
Theorem notify_keeps_the_lists ω σ Ls a :
  match notify_one ω a σ with
  | Ret _ σ' | Throw _ σ' =>
      m_wait_table σ' = m_wait_table σ ∧ ctxs σ' = ctxs σ
  | Stuck => True
  end ∧
  match notify_all ω a σ with
  | Ret _ σ' | Throw _ σ' =>
      m_wait_table σ' = m_wait_table σ ∧ ctxs σ' = ctxs σ
  | Stuck => True
  end ∧
  (table_inv None σ Ls →
   (∃ σ', notify_one ω a σ = Ret tt σ' ∨
          notify_one ω a σ = Throw system_error σ') ∧
   (∃ σ', notify_all ω a σ = Ret tt σ' ∨
          notify_all ω a σ = Throw system_error σ')).
Proof.
  split; [|split].
  - apply (locked_scan_frame (λ fuel, notify_one_loop fuel a)).
    intros fuel cur σ0. apply notify_one_loop_frame.
  - apply (locked_scan_frame (λ fuel, notify_all_loop fuel a)).
    intros fuel cur σ0. apply notify_all_loop_frame.
  - intros Hinv.
    destruct (table_inv_lookup _ _ _ _ Hinv (get_bucket_for_lt a))
      as (bk & L & Hbk & HL & _).
    destruct (lock_fails ω) eqn:Hlf.
    + split; exists σ; right.
      * by apply notify_one_throws.
      * by apply notify_all_throws.
    + split; eexists; left.
      * by eapply notify_one_returns.
      * by eapply notify_all_returns.
Qed.

(** C4.  [notify_all] examines every context of the bucket list, front to
    back, and signals exactly those whose watched address is the given one;
    neither [notify_all] nor [notify_one] signals a context that watches
    another address, also when both addresses fall into the same bucket. *)
Theorem notify_all_signals_every_match ω σ Ls a L :
  table_inv None σ Ls → Ls !! get_bucket_for a = Some L →
  lock_fails ω = false →
  ∃ tr tr1,
    notify_all ω a σ = Ret tt (with_trace (trace σ ++ tr) σ) ∧
    examined tr = L.*1 ∧
    signalled tr = (filter (λ ca, ca.2 = a) L).*1 ∧
    notify_one ω a σ = Ret tt (with_trace (trace σ ++ tr1) σ) ∧
    ∀ a' c L', a' ≠ a → Ls !! get_bucket_for a' = Some L' → (c, a') ∈ L' →
               (c ∉ signalled tr) ∧ (c ∉ signalled tr1).
Proof.
  intros Hinv HL Hlf. exists (all_events a L), (one_events a L).
  destruct (all_events_spec a L) as [Hs He].
  split; [by eapply notify_all_returns|]. split; [done|]. split; [done|].
  split; [by eapply notify_one_returns|].
  intros a' c L' Hne HL' Hin.
  destruct (table_inv_dll _ _ _ _ _ Hinv HL) as (bk & _ & Hd).
  destruct (table_inv_dll _ _ _ _ _ Hinv HL') as (bk' & _ & Hd').
  destruct (dll_lookup _ _ _ _ _ _ Hd' Hin) as (x' & Hx' & Ha').
  assert (∀ c0, (c0, a) ∈ L → c0 ≠ c) as Hother.
  { intros c0 Hin0 ->.
    destruct (dll_lookup _ _ _ _ _ _ Hd Hin0) as (x & Hx & Ha). congruence. }
  split.
  - rewrite Hs. intros ([c0 a0] & -> & Hfil)%list_elem_of_fmap.
    apply list_elem_of_filter in Hfil as [Ha0 Hin0].
    simpl in *. subst a0. by eapply Hother.
  - intros Hc%one_events_signalled. by eapply Hother.
Qed.

(** C3.  [notify_one] examines the bucket list from the head up to the
    first context whose watched address is the given one, signals the
    condition variable of that context only, and stops; with no such
    context it examines the whole list and signals nothing.  Registration
    being at the front, once a context watching the address is registered
    and stays so, the context signalled is that one or one registered after
    it: the most recently registered one that matches. *)
Theorem notify_one_signals_first_match ω σ Ls a L :
  table_inv None σ Ls → Ls !! get_bucket_for a = Some L →
  lock_fails ω = false →
  ∃ tr,
    notify_one ω a σ = Ret tt (with_trace (trace σ ++ tr) σ) ∧
    ((∀ ca, ca ∈ L → ca.2 ≠ a) → signalled tr = [] ∧ examined tr = L.*1) ∧
    (∀ A c B, L = A ++ (c, a) :: B → (∀ ca, ca ∈ A → ca.2 ≠ a) →
              signalled tr = [c] ∧ examined tr = A.*1 ++ [c]) ∧
    (∀ c later,
       ctxs σ !! c = None →
       env_ok (Some c) ({[c]} ∪ dom (ctxs σ)) later →
       ∃ σ1 tr1 c',
         interfere (other_registers c a :: later) σ = Ret tt σ1 ∧
         notify_one ω a σ1 = Ret tt (with_trace (trace σ1 ++ tr1) σ1) ∧
         signalled tr1 = [c'] ∧
         (c' = c ∨ other_registers c' a ∈ later)).
Proof.
  intros Hinv HL Hlf. exists (one_events a L).
  split; [by eapply notify_one_returns|].
  split; [apply one_events_no_match|].
  split; [intros A c B ->; apply one_events_first_match|].
  intros c later Hc Hok.
  destruct (run_returns (interfere (other_registers c a :: later)) σ
              (λ _ σ1, table_inv None σ1
                         (abs_run (other_registers c a :: later) Ls)))
    as ([] & σ1 & Hrun & Hinv1).
  { apply (run_interfere (Some c) _ _ Ls); [done| |done].
    simpl. split; [by apply not_elem_of_dom|done]. }
  destruct (abs_run_front c a later ({[c]} ∪ dom (ctxs σ))
              (alter (cons (c, a)) (get_bucket_for a) Ls)
              (get_bucket_for a) [] L Hok)
    as (A' & B' & HL1 & HA').
  { apply elem_of_union. left. by apply elem_of_singleton. }
  { by rewrite list_lookup_alter_eq, HL. }
  destruct (one_events_front a A' c B') as (c' & Hsig & Hc').
  exists σ1, (one_events a (A' ++ (c, a) :: B')), c'.
  split; [done|]. split; [by eapply notify_one_returns|]. split; [done|].
  destruct Hc' as [->|Hin]; [by left|]. right.
  destruct (HA' _ Hin) as [Hnil|Hreg]; [by apply elem_of_nil in Hnil|done].
Qed.


(** C6.  A call that sleeps - lock and context were had and the bytes were
    equal at the comparison - compares once, waits on the condition
    variable once, and then leaves: whatever ended the wait (a notify, a
    spurious wake, the timeout of the bounded overload) and whatever the
    other threads did meanwhile, these two events are all the call does,
    and its context is unregistered on return: the context is no object
    any more, no bucket reaches it, and the table is well formed with the
    lists that its registration, the steps of the other threads and its
    unregistration produce. *)
Theorem wait_sleeps_once ω σ Ls a cmp n ms :
  table_inv None σ Ls → ctxs σ !! context_at ω = None →
  lock_fails ω = false → cv_ctor_fails ω = false →
  n ≤ length cmp → load σ a n = take n cmp →
  env_ok (Some (context_at ω)) ({[context_at ω]} ∪ dom (ctxs σ))
    (interference ω) →
  (∃ σ', wait ω a cmp n σ = Ret tt σ' ∧
         trace σ' = trace σ ++
           [ev_memcmp a n; ev_cv_wait (context_at ω) (woken_by ω)] ∧
         (∀ b, ¬ linked_in σ' b (context_at ω)) ∧
         ctxs σ' !! context_at ω = None ∧
         table_inv None σ' (lists_after_wait ω a Ls)) ∧
  (∃ σ', wait_for ω a cmp n ms σ = ends_as (timed_woken_by ω) σ' ∧
         trace σ' = trace σ ++
           [ev_memcmp a n;
            ev_cv_wait_for (context_at ω) ms (timed_woken_by ω)] ∧
         (∀ b, ¬ linked_in σ' b (context_at ω)) ∧
         ctxs σ' !! context_at ω = None ∧
         table_inv None σ' (lists_after_wait ω a Ls)).
Proof.
  intros Hinv Hc Hlf Hcf Hn Hsame Hok. split.
  - destruct (wait_sleeps ω σ Ls a cmp n) as (σ' & Hw & Hinv' & Htr & Hc');
      try done.
    exists σ'. split; [done|]. split; [done|].
    split; [|done]. intros b. by apply not_linked_dead.
  - destruct (wait_for_sleeps ω σ Ls a cmp n ms)
      as (σ' & Hw & Hinv' & Htr & Hc'); try done.
    exists σ'. split; [done|]. split; [done|].
    split; [|done]. intros b. by apply not_linked_dead.
Qed.

(** C5.  None of the four entry points lets an exception out.  On a well
    formed table each of them returns; when the wait table throws because
    the lock or the context cannot be had, the wait returns at once and the
    notify does nothing - the state is the one before the call - and when
    the bounded sleep ends by an exception the wait returns with its
    context unregistered. *)
Theorem entry_points_never_throw ω σ Ls atom old ms :
  (∀ e σ', atomic_wait_native ω atom old σ ≠ Throw e σ' ∧
           atomic_wait_for_native ω atom old ms σ ≠ Throw e σ' ∧
           atomic_notify_one_native ω atom σ ≠ Throw e σ' ∧
           atomic_notify_all_native ω atom σ ≠ Throw e σ') ∧
  (table_inv None σ Ls → ctxs σ !! context_at ω = None →
   env_ok (Some (context_at ω)) ({[context_at ω]} ∪ dom (ctxs σ))
     (interference ω) →
   (∃ σ', atomic_wait_native ω atom old σ = Ret tt σ' ∧
          ctxs σ' !! context_at ω = None ∧
          (∀ e σ'', wait ω atom (object_repr old) sizeof_old σ = Throw e σ'' →
                    σ' = σ)) ∧
   (∃ σ', atomic_wait_for_native ω atom old ms σ = Ret tt σ' ∧
          ctxs σ' !! context_at ω = None ∧
          (lock_fails ω = true ∨ cv_ctor_fails ω = true → σ' = σ)) ∧
   (∃ σ', atomic_notify_one_native ω atom σ = Ret tt σ' ∧
          (lock_fails ω = true → σ' = σ)) ∧
   (∃ σ', atomic_notify_all_native ω atom σ = Ret tt σ' ∧
          (lock_fails ω = true → σ' = σ))).
Proof.
  split.
  - intros e σ'.
    unfold atomic_wait_native, atomic_wait_for_native,
      atomic_notify_one_native, atomic_notify_all_native, try_catch_all.
    repeat split.
    + by destruct (wait _ _ _ _ _).
    + by destruct (wait_for _ _ _ _ _ _).
    + by destruct (notify_one _ _ _).
    + by destruct (notify_all _ _ _).
  - intros Hinv Hc Hok.
    assert (sizeof_old ≤ length (object_repr old)) as Hn.
    { by rewrite object_repr_size. }
    destruct (table_inv_lookup _ _ _ _ Hinv (get_bucket_for_lt atom))
      as (bk & L & Hbk & HL & _).
    split; [|split; [|split]].
    + unfold atomic_wait_native, try_catch_all.
      destruct (wait_cases ω σ Ls atom (object_repr old) sizeof_old
                  Hinv Hc Hn Hok)
        as [[_ Hw]|[(_ & _ & _ & Hw)|(_ & _ & _ & σ' & Hw & _ & _ & Hc')]];
        rewrite Hw.
      * by exists σ.
      * by eexists.
      * by exists σ'.
    + unfold atomic_wait_for_native, try_catch_all.
      destruct (wait_for_cases ω σ Ls atom (object_repr old) sizeof_old ms
                  Hinv Hc Hn Hok)
        as [[_ Hw]|[(Hlf & Hcf & _ & Hw)|
                    (Hlf & Hcf & _ & σ' & Hw & _ & _ & Hc')]];
        rewrite Hw.
      * exists σ. done.
      * eexists. split; [done|]. split; [done|].
        intros [?|?]; congruence.
      * exists σ'. split; [by destruct (timed_woken_by ω)|]. split; [done|].
        intros [?|?]; congruence.
    + unfold atomic_notify_one_native, try_catch_all.
      destruct (lock_fails ω) eqn:Hlf.
      * rewrite notify_one_throws by done. by exists σ.
      * rewrite (notify_one_returns ω σ Ls atom L) by done. by eexists.
    + unfold atomic_notify_all_native, try_catch_all.
      destruct (lock_fails ω) eqn:Hlf.
      * rewrite notify_all_throws by done. by exists σ.
      * rewrite (notify_all_returns ω σ Ls atom L) by done. by eexists.
Qed.

End fallback_claims.

(** ** The claims on concrete tables *)

Ltac by_computation := apply (bool_decide_unpack _); vm_compute; exact I.

Lemma populated_table_inv :
  table_inv (P := demo_platform) None populated_state populated_lists.
Proof.
  destruct (run_returns (interfere (P := demo_platform) demo_history)
              empty_state
              (λ _ σ1, table_inv (P := demo_platform) None σ1 populated_lists))
    as ([] & σ1 & Hrun & Hinv1).
  { apply (run_interfere None _ _ empty_lists);
      [apply empty_table_inv| |done].
    simpl. repeat split; try done; by_computation. }
  unfold populated_state. by rewrite Hrun.
Qed.

Lemma busy_env_ok :
  env_ok (Some (context_at busy_env))
    ({[context_at busy_env]} ∪ dom (ctxs populated_state))
    (interference busy_env).
Proof.
  simpl. split; [by_computation|]. split; [by_computation|].
  split; [discriminate|exact I].
Qed.

Lemma populated_unlinked_dll :
  dll (ctxs populated_unlinked_state) None (Some 9%positive)
    [(9%positive, 100%N); (8%positive, 357%N); (7%positive, 100%N)].
Proof.
  destruct (table_inv_dll (P := demo_platform) None populated_state
              populated_lists 100
              [(9%positive, 100%N); (8%positive, 357%N); (7%positive, 100%N)]
              populated_table_inv) as (bk & Hbk & Hd).
  { vm_compute. reflexivity. }
  assert (head bk = Some 9%positive) as Hhd by exact (proj1 Hd).
  rewrite Hhd in Hd. eapply dll_frame; [exact Hd|].
  intros l Hl. unfold populated_unlinked_state. simpl.
  rewrite lookup_insert_ne; [reflexivity|]. intros <-. revert Hl.
  apply (bool_decide_unpack _). vm_compute. exact I.
Qed.

Lemma wait_returns_at_once_when_value_differs_witness :
  ∃ σ', wait (P := demo_platform) demo_env 100 [1; 0; 0; 0]%Z 4 empty_state
          = Ret tt σ' ∧
        wait_for (P := demo_platform) demo_env 100 [1; 0; 0; 0]%Z 4 50
          empty_state = Ret tt σ' ∧
        trace σ' = trace empty_state ++ [ev_memcmp 100 4] ∧
        (∀ e, e ∈ drop (length (trace empty_state)) (trace σ') →
              is_cv_wait e = false) ∧
        (∀ b, ¬ linked_in σ' b (context_at demo_env)) ∧
        table_inv (P := demo_platform) None σ' empty_lists.
Proof.
  apply (wait_returns_at_once_when_value_differs (P := demo_platform)
           demo_env empty_state empty_lists 100 [1; 0; 0; 0]%Z 4 50%Z).
  - apply empty_table_inv.
  - reflexivity.
  - reflexivity.
  - reflexivity.
  - simpl. lia.
  - vm_compute. discriminate.
Defined.


Lemma wait_sleeps_once_witness :
  ∃ σ', wait (P := demo_platform) busy_env 100 [0; 0; 0; 0]%Z 4
          populated_state = Ret tt σ' ∧
        trace σ' = trace populated_state ++
          [ev_memcmp 100 4; ev_cv_wait 5 spurious] ∧
        ctxs σ' !! 5%positive = None ∧
        table_inv (P := demo_platform) None σ'
          (lists_after_wait (P := demo_platform) busy_env 100
             populated_lists) ∧
        lists_after_wait (P := demo_platform) busy_env 100 populated_lists
          !! 100 = Some [(6%positive, 100%N); (8%positive, 357%N);
                         (7%positive, 100%N)].
Proof.
  destruct (wait_sleeps_once (P := demo_platform)
              busy_env populated_state populated_lists 100 [0; 0; 0; 0]%Z 4
              50%Z)
    as [(σ' & Hw & Htr & _ & Hc & Hinv) _].
  - apply populated_table_inv.
  - vm_compute. reflexivity.
  - reflexivity.
  - reflexivity.
  - simpl. lia.
  - vm_compute. reflexivity.
  - apply busy_env_ok.
  - exists σ'. split; [exact Hw|]. split; [exact Htr|]. split; [exact Hc|].
    split; [exact Hinv|]. vm_compute. reflexivity.
Defined.

Lemma entry_points_never_throw_witness :
  ∃ σ', atomic_wait_native (P := demo_platform) demo_env 100 0 empty_state
          = Ret tt σ' ∧
        ctxs σ' !! context_at demo_env = None.
Proof.
  destruct (entry_points_never_throw (P := demo_platform)
              demo_env empty_state empty_lists 100 0%Z 50%Z)
    as [_ Hret].
  destruct Hret as [(σ' & Hw & Hc & _) _].
  - apply empty_table_inv.
  - reflexivity.
  - simpl. repeat split; try done; by_computation.
  - exists σ'. split; [exact Hw|exact Hc].
Defined.

Lemma notify_one_signals_first_match_witness :
  ∃ tr, notify_one (P := demo_platform) calm 100 populated_state
          = Ret tt (with_trace (trace populated_state ++ tr) populated_state) ∧
        signalled tr = [9%positive] ∧ examined tr = [9%positive].
Proof.
  destruct (notify_one_signals_first_match (P := demo_platform)
              calm populated_state populated_lists 100
              [(9%positive, 100%N); (8%positive, 357%N); (7%positive, 100%N)])
    as (tr & Hrun & _ & Hfirst & _).
  - apply populated_table_inv.
  - vm_compute. reflexivity.
  - reflexivity.
  - destruct (Hfirst [] 9%positive [(8%positive, 357%N); (7%positive, 100%N)])
      as [Hs He].
    + reflexivity.
    + intros ca Hca. destruct (proj1 (elem_of_nil _) Hca).
    + exists tr. split; [exact Hrun|]. split; [exact Hs|exact He].
Defined.

Lemma notify_all_signals_every_match_witness :
  ∃ tr, notify_all (P := demo_platform) calm 100 populated_state
          = Ret tt (with_trace (trace populated_state ++ tr) populated_state) ∧
        examined tr = [9; 8; 7]%positive ∧ signalled tr = [9; 7]%positive.
Proof.
  destruct (notify_all_signals_every_match (P := demo_platform)
              calm populated_state populated_lists 100
              [(9%positive, 100%N); (8%positive, 357%N); (7%positive, 100%N)])
    as (tr & tr1 & Hrun & He & Hs & _).
  - apply populated_table_inv.
  - vm_compute. reflexivity.
  - reflexivity.
  - exists tr. split; [exact Hrun|]. split; [exact He|exact Hs].
Defined.

Lemma notify_keeps_the_lists_witness :
  ∃ σ', notify_one (P := demo_platform) calm 100 populated_state = Ret tt σ' ∨
        notify_one (P := demo_platform) calm 100 populated_state
          = Throw system_error σ'.
Proof.
  destruct (notify_keeps_the_lists (P := demo_platform)
              calm populated_state populated_lists 100) as (_ & _ & Hends).
  destruct Hends as [Hone _].
  - apply populated_table_inv.
  - exact Hone.
Defined.

Lemma remove_after_push_front_restores_witness :
  (∃ σ', (push_front_wait_ctx 100 5;; remove_wait_ctx 100 5)
           populated_unlinked_state = Ret tt σ' ∧
         m_wait_table σ' = m_wait_table populated_unlinked_state ∧
         ctxs σ' !! 9%positive
           = Some (mk_wait_context 100 (Some 8%positive) None) ∧
         dll (ctxs σ') None (Some 9%positive)
           [(9%positive, 100%N); (8%positive, 357%N); (7%positive, 100%N)]) ∧
  (∃ σ', wait (P := demo_platform) demo_env 100 [1; 0; 0; 0]%Z 4
           populated_state = Ret tt σ' ∧
         m_wait_table σ' = m_wait_table populated_state ∧
         ctxs σ' = ctxs populated_state).
Proof.
  destruct (remove_after_push_front_restores (P := demo_platform)
              populated_unlinked_state 100
              (mk_bucket false (Some 9%positive))
              [(9%positive, 100%N); (8%positive, 357%N); (7%positive, 100%N)]
              5%positive (mk_wait_context 100 None None)
              demo_env populated_lists 100 [1; 0; 0; 0]%Z 4 50%Z)
    as [Hbucket _].
  destruct (remove_after_push_front_restores (P := demo_platform)
              populated_state 100 (mk_bucket false (Some 9%positive)) []
              5%positive (mk_wait_context 100 None None)
              demo_env populated_lists 100 [1; 0; 0; 0]%Z 4 50%Z)
    as [_ Hwait].
  split.
  - destruct Hbucket as (σ' & Hrun & Htbl & Hother & Hd).
    + vm_compute. reflexivity.
    + exact populated_unlinked_dll.
    + vm_compute. reflexivity.
    + reflexivity.
    + reflexivity.
    + apply (bool_decide_unpack _). vm_compute. exact I.
    + exists σ'. split; [exact Hrun|]. split; [exact Htbl|].
      split; [|exact Hd].
      refine (eq_trans (Hother 9%positive _) _); [discriminate|].
      vm_compute. reflexivity.
  - destruct Hwait as (σ' & Hrun & _ & Htbl & Hctxs).
    + apply populated_table_inv.
    + vm_compute. reflexivity.
    + reflexivity.
    + reflexivity.
    + simpl. lia.
    + vm_compute. discriminate.
    + exists σ'. split; [exact Hrun|]. split; [exact Htbl|exact Hctxs].
Defined.

Lemma wait_on_address_timeout_witness :
  AddressWait.timeout_of (AddressWait.atomic_wait_for_native 0 0 100)
    = Some 100%Z.
Proof.
  apply (proj2 (wait_on_address_timeout 0 0 100)). lia.
Defined.

(** * Further properties of the code *)

(** ** Lemmas *)

Lemma link_front_untouched h c hd l :
  l ≠ c → hd ≠ Some l → link_front h c hd !! l = h !! l.
Proof.
  intros Hc Hhd. unfold link_front. destruct hd as [n|].
  - rewrite !lookup_alter_ne; [done|done|congruence].
  - by rewrite lookup_alter_ne.
Qed.

(** The [prev] link of a linked context never points to the context. *)
Lemma dll_prev_ne h prv cur L c x :
  dll h prv cur L → (∀ p, prv = Some p → p ∉ L.*1) → c ∈ L.*1 →
  h !! c = Some x → prev x ≠ Some c.
Proof.
  intros Hd. pose proof (dll_NoDup _ _ _ _ Hd) as Hnd. revert prv cur Hd Hnd.
  induction L as [|[l a] L IH]; intros prv cur Hd Hnd Hprv Hin Hx.
  { by apply elem_of_nil in Hin. }
  simpl in Hd. destruct Hd as (-> & xl & Hxl & Ha & Hp & Hd). simpl in *.
  apply NoDup_cons in Hnd as [Hl Hnd].
  destruct (decide (l = c)) as [->|Hne].
  - assert (x = xl) as -> by congruence. rewrite Hp. intros Heq.
    by apply (Hprv c Heq).
  - apply elem_of_cons in Hin as [?|Hin]; [congruence|].
    apply (IH (Some l) (next xl)); try done. intros p Heq. by simplify_eq.
Qed.

(** Unlinking writes the neighbours only. *)
Lemma unlink_self h cur L c :
  dll h None cur L → c ∈ L.*1 → unlink h c !! c = h !! c.
Proof.
  intros Hd Hc. destruct (dll_live _ _ _ _ _ Hd Hc) as [x Hx].
  assert (prev x ≠ Some c) as Hp by (by eapply dll_prev_ne).
  unfold unlink. rewrite Hx.
  destruct (dll_next_cases _ _ _ _ _ _ Hd Hc Hx) as [Hn|(n & Hn & _ & Hnc)];
    rewrite Hn; destruct (prev x) as [p|];
    rewrite ?lookup_alter_ne; done || congruence.
Qed.

Lemma one_events_vs_all_events a L :
  signalled (one_events a L) = take 1 (signalled (all_events a L)) ∧
  examined (one_events a L) `prefix_of` examined (all_events a L).
Proof.
  induction L as [|[c a'] L [IHs IHe]].
  { split; [done|]. by apply prefix_nil. }
  cbn [one_events all_events fst snd].
  destruct (N.eqb_spec a' a) as [->|Hne]; cbn [app].
  - rewrite !signalled_cons, !examined_cons. split; [done|].
    apply prefix_cons, prefix_nil.
  - rewrite !signalled_cons, !examined_cons. split; [done|].
    by apply prefix_cons.
Qed.

Lemma one_events_app_no_match a A B :
  (∀ ca, ca ∈ A → ca.2 ≠ a) →
  signalled (one_events a (A ++ B)) = signalled (one_events a B).
Proof.
  induction A as [|[c a'] A IH]; intros Hno; [done|].
  cbn [app one_events fst snd].
  destruct (N.eqb_spec a' a) as [->|Hne].
  - exfalso. by apply (Hno (c, a)); [left|].
  - rewrite signalled_cons. apply IH. intros ca Hca. apply Hno. by right.
Qed.

Section native_lemmas.
Local Open Scope Z_scope.

Lemma ms_to_time_spec_fields (ms : Z) :
  Int.is_size_t ms →
  Futex.tv_sec (Futex.ms_to_time_spec ms) = ms / 1000 ∧
  Futex.tv_nsec (Futex.ms_to_time_spec ms) = (ms mod 1000) * 1000000.
Proof.
  unfold Int.is_size_t. intros Hms.
  assert (0 ≤ ms / 1000 < 2 ^ 63) as Hsec.
  { split; [apply Z.div_pos; lia|apply Z.div_lt_upper_bound; lia]. }
  assert (0 ≤ ms mod 1000 < 1000) as Hrem by (apply Z.mod_pos_bound; lia).
  split; simpl.
  - unfold Futex.static_cast_time_t, Int.to_signed.
    rewrite Z.mod_small by lia.
    destruct (Z.ltb_spec (ms / 1000) (2 ^ (64 - 1))); [done|lia].
  - unfold Futex.to_long, Futex.size_t_mul, Int.to_signed, Int.to_unsigned.
    rewrite (Z.mod_small (ms mod 1000 * 1000000)) by lia.
    rewrite Z.mod_small by lia.
    destruct (Z.ltb_spec (ms mod 1000 * 1000000) (2 ^ (64 - 1))); [done|lia].
Qed.

End native_lemmas.

(** ** The native back ends *)

Section native_extras.
Local Open Scope Z_scope.

(** X1.  Whatever count the caller passes, negative ones included, the futex
    back end hands the kernel a well-formed [timespec]: [tv_sec] is not
    negative, [tv_nsec] lies in [0, 1000000000), and together they are the
    count taken modulo 2^64.  So a negative count is not an immediate
    timeout but a wait of at least 2^63 ms. *)
Theorem futex_wait_for_timespec (atom old ms : Z) :
  Int.is_ms_rep ms →
  ∃ ts, Futex.fx_ts (Futex.atomic_wait_for_native atom old ms) = Some ts ∧
        0 ≤ Futex.tv_sec ts ∧ 0 ≤ Futex.tv_nsec ts < 1000000000 ∧
        Futex.tv_sec ts * 1000 + Futex.tv_nsec ts / 1000000 = ms mod 2 ^ 64 ∧
        (ms < 0 → 2 ^ 63 ≤ Futex.tv_sec ts * 1000 + Futex.tv_nsec ts / 1000000).
Proof.
  unfold Int.is_ms_rep. intros Hms.
  exists (Futex.ms_to_time_spec (Int.to_unsigned 64 ms)). split; [done|].
  unfold Int.to_unsigned.
  assert (0 ≤ ms mod 2 ^ 64 < 2 ^ 64) as Hu by (apply Z.mod_pos_bound; lia).
  destruct (ms_to_time_spec_fields (ms mod 2 ^ 64) Hu) as [-> ->].
  assert (0 ≤ (ms mod 2 ^ 64) mod 1000 < 1000) as Hrem
    by (apply Z.mod_pos_bound; lia).
  rewrite Z.div_mul by lia.
  pose proof (Z.div_mod (ms mod 2 ^ 64) 1000).
  assert (0 ≤ ms mod 2 ^ 64 / 1000) by (apply Z.div_pos; lia).
  split; [done|]. split; [lia|]. split; [lia|].
  intros Hneg. replace (ms mod 2 ^ 64) with (ms + 2 ^ 64) in *; [lia|].
  apply (Z.mod_unique _ _ (-1)); lia.
Qed.

Lemma futex_wait_for_timespec_witness :
  ∃ ts, Futex.fx_ts (Futex.atomic_wait_for_native 0 0 (-1)) = Some ts ∧
        2 ^ 63 ≤ Futex.tv_sec ts * 1000 + Futex.tv_nsec ts / 1000000.
Proof.
  destruct (futex_wait_for_timespec 0 0 (-1)) as (ts & Hts & _ & _ & _ & Hlong).
  - unfold Int.is_ms_rep. lia.
  - exists ts. split; [exact Hts|]. apply Hlong. lia.
Defined.

(** X2.  [ms_to_time_spec] keeps the order of timeouts: a larger count
    gives a later [timespec], compared by seconds and then nanoseconds. *)
Theorem ms_to_time_spec_monotone (ms1 ms2 : Z) :
  Int.is_size_t ms1 → Int.is_size_t ms2 → ms1 < ms2 →
  Futex.tv_sec (Futex.ms_to_time_spec ms1)
    < Futex.tv_sec (Futex.ms_to_time_spec ms2) ∨
  (Futex.tv_sec (Futex.ms_to_time_spec ms1)
     = Futex.tv_sec (Futex.ms_to_time_spec ms2) ∧
   Futex.tv_nsec (Futex.ms_to_time_spec ms1)
     < Futex.tv_nsec (Futex.ms_to_time_spec ms2)).
Proof.
  intros H1 H2 Hlt.
  destruct (ms_to_time_spec_fields ms1 H1) as [-> ->].
  destruct (ms_to_time_spec_fields ms2 H2) as [-> ->].
  pose proof (Z.div_mod ms1 1000). pose proof (Z.div_mod ms2 1000).
  assert (0 ≤ ms1 mod 1000 < 1000) by (apply Z.mod_pos_bound; lia).
  assert (0 ≤ ms2 mod 1000 < 1000) by (apply Z.mod_pos_bound; lia).
  assert (ms1 / 1000 ≤ ms2 / 1000) by (apply Z.div_le_mono; lia).
  lia.
Qed.

Lemma ms_to_time_spec_monotone_witness :
  Futex.tv_sec (Futex.ms_to_time_spec 999)
    < Futex.tv_sec (Futex.ms_to_time_spec 1000) ∨
  (Futex.tv_sec (Futex.ms_to_time_spec 999)
     = Futex.tv_sec (Futex.ms_to_time_spec 1000) ∧
   Futex.tv_nsec (Futex.ms_to_time_spec 999)
     < Futex.tv_nsec (Futex.ms_to_time_spec 1000)).
Proof.
  apply (ms_to_time_spec_monotone 999 1000); unfold Int.is_size_t; lia.
Defined.

(** X3.  The bounded wait of the address-wait back end issues the very call
    of the unbounded wait exactly when the count is 2^32 - 1 modulo 2^32:
    such a count (4294967295, or -1) is [INFINITE] to the operating system,
    and the wait has no timeout. *)
Theorem wait_on_address_infinite (atom old ms : Z) :
  AddressWait.atomic_wait_for_native atom old ms
    = AddressWait.atomic_wait_native atom old ↔
  ms mod 2 ^ 32 = 2 ^ 32 - 1.
Proof.
  unfold AddressWait.atomic_wait_for_native, AddressWait.atomic_wait_native,
    AddressWait.static_cast_DWORD, Int.to_unsigned, AddressWait.INFINITE.
  split.
  - intros [= Heq]. rewrite Heq. reflexivity.
  - intros ->. reflexivity.
Qed.

End native_extras.

(** ** The fallback engine *)

Section fallback_extras.
Context `{P : platform}.

(** X4.  The index [get_bucket_for] computes is below the table size, so on
    a table of the declared size the bucket of any address exists. *)
Theorem bucket_lookup_in_range a σ :
  length (m_wait_table σ) = N.to_nat k_wait_table_size →
  get_bucket_for a < N.to_nat k_wait_table_size ∧
  ∃ bk, get_bucket (get_bucket_for a) σ = Ret bk σ.
Proof.
  intros Hlen. split; [apply get_bucket_for_lt|].
  destruct (lookup_lt_is_Some_2 (m_wait_table σ) (get_bucket_for a))
    as [bk Hbk].
  { rewrite Hlen. apply get_bucket_for_lt. }
  exists bk. unfold get_bucket. by rewrite Hbk.
Qed.

(** X5.  On a well-formed bucket list [L], [push_front_wait_ctx] of a
    context with null links that is not in [L] makes it the head of the
    bucket, in front of [L] in its old order; the list is well formed
    again, the mutex and the other buckets are not touched, and the only
    contexts written are the new one and the former head. *)
Theorem push_front_links_at_front σ b bk L c x :
  m_wait_table σ !! b = Some bk → dll (ctxs σ) None (head bk) L →
  ctxs σ !! c = Some x → next x = None → prev x = None → c ∉ L.*1 →
  ∃ σ', push_front_wait_ctx b c σ = Ret tt σ' ∧
        m_wait_table σ' !! b = Some (mk_bucket (lock bk) (Some c)) ∧
        (∀ i, i ≠ b → m_wait_table σ' !! i = m_wait_table σ !! i) ∧
        dll (ctxs σ') None (Some c) ((c, storage_ptr x) :: L) ∧
        (∀ l, l ≠ c → head bk ≠ Some l → ctxs σ' !! l = ctxs σ !! l).
Proof.
  intros Hbk Hd Hx Hn Hp Hc.
  assert (b < length (m_wait_table σ)) as Hlt by (by eapply lookup_lt_Some).
  exists (with_table (<[b := mk_bucket (lock bk) (Some c)]> (m_wait_table σ))
            (with_ctxs (link_front (ctxs σ) c (head bk)) σ)).
  split; [|split; [|split; [|split]]].
  - apply run_ret_eq. by apply (run_push_front _ b bk c x L).
  - simpl. by apply list_lookup_insert_eq.
  - intros i Hi. simpl. by apply list_lookup_insert_ne.
  - simpl. by apply dll_link_front.
  - intros l Hl Hhd. simpl. by apply link_front_untouched.
Qed.

(** X6.  [remove_wait_ctx] takes a context out of a well-formed bucket list
    wherever it stands - at the head, in the middle or at the end: the
    others keep their order and the list is well formed again; the head of
    the bucket moves only when the head itself is removed; contexts outside
    the list and the other buckets are not touched.  The removed context
    keeps its own, now stale, links. *)
Theorem remove_unlinks_anywhere σ b bk L c :
  m_wait_table σ !! b = Some bk → dll (ctxs σ) None (head bk) L →
  c ∈ L.*1 →
  ∃ σ' bk',
    remove_wait_ctx b c σ = Ret tt σ' ∧
    m_wait_table σ' !! b = Some bk' ∧ lock bk' = lock bk ∧
    (head bk ≠ Some c → head bk' = head bk) ∧
    (∀ i, i ≠ b → m_wait_table σ' !! i = m_wait_table σ !! i) ∧
    dll (ctxs σ') None (head bk') (filter (λ ca, ca.1 ≠ c) L) ∧
    (∀ l, l ∉ L.*1 → ctxs σ' !! l = ctxs σ !! l) ∧
    ctxs σ' !! c = ctxs σ !! c.
Proof.
  intros Hbk Hd Hc.
  assert (b < length (m_wait_table σ)) as Hlt by (by eapply lookup_lt_Some).
  destruct (dll_live _ _ _ _ _ Hd Hc) as [x Hx].
  set (bk' := mk_bucket (lock bk)
                (if decide (head bk = Some c) then next x else head bk)).
  exists (with_table (<[b := bk']> (m_wait_table σ))
            (with_ctxs (unlink (ctxs σ) c) σ)), bk'.
  split; [|split; [|split; [|split; [|split; [|split; [|split]]]]]].
  - apply run_ret_eq. by apply (run_remove _ b bk c x L).
  - simpl. by apply list_lookup_insert_eq.
  - done.
  - intros Hhd. unfold bk'. simpl. by rewrite decide_False.
  - intros i Hi. simpl. by apply list_lookup_insert_ne.
  - simpl. by apply dll_unlink.
  - intros l Hl. simpl. by eapply unlink_other.
  - simpl. by eapply unlink_self.
Qed.

(** X7.  On the same table [notify_one] signals the first of the contexts
    [notify_all] signals, and no other; the contexts it examines are the
    first ones [notify_all] examines. *)
Theorem notify_one_is_first_of_notify_all ω σ Ls a :
  table_inv None σ Ls → lock_fails ω = false →
  ∃ tr1 tra,
    notify_one ω a σ = Ret tt (with_trace (trace σ ++ tr1) σ) ∧
    notify_all ω a σ = Ret tt (with_trace (trace σ ++ tra) σ) ∧
    signalled tr1 = take 1 (signalled tra) ∧
    examined tr1 `prefix_of` examined tra.
Proof.
  intros Hinv Hlf.
  destruct (table_inv_lookup _ _ _ _ Hinv (get_bucket_for_lt a))
    as (bk & L & Hbk & HL & _).
  exists (one_events a L), (all_events a L).
  split; [by eapply notify_one_returns|].
  split; [by eapply notify_all_returns|]. apply one_events_vs_all_events.
Qed.

(** X8.  A notify is not used up: as long as the signalled waiter has not
    left, a second [notify_one] examines and signals exactly what the first
    did, so it wakes no further thread. *)
Theorem notify_one_twice_signals_same ω σ Ls a :
  table_inv None σ Ls → lock_fails ω = false →
  ∃ tr,
    notify_one ω a σ = Ret tt (with_trace (trace σ ++ tr) σ) ∧
    (notify_one ω a;; notify_one ω a) σ
      = Ret tt (with_trace (trace σ ++ tr ++ tr) σ).
Proof.
  intros Hinv Hlf.
  destruct (table_inv_lookup _ _ _ _ Hinv (get_bucket_for_lt a))
    as (bk & L & Hbk & HL & _).
  exists (one_events a L).
  assert (notify_one ω a σ
          = Ret tt (with_trace (trace σ ++ one_events a L) σ)) as Hone
    by (by eapply notify_one_returns).
  split; [done|]. unfold mbind, M_bind, bind. rewrite Hone.
  rewrite (notify_one_returns ω _ Ls a L);
    [|by apply table_inv_with_trace|done|done].
  by rewrite with_trace_app.
Qed.

(** X9.  With [c] the first context watching [a] in its bucket,
    [notify_one] signals [c]; once the thread of [c] has returned from its
    wait, the next [notify_one] signals the first context watching [a]
    behind it - another context - or nothing when there is none. *)
Theorem notify_one_after_leave_signals_next ω σ Ls a A c B :
  table_inv None σ Ls → Ls !! get_bucket_for a = Some (A ++ (c, a) :: B) →
  (∀ ca, ca ∈ A → ca.2 ≠ a) → lock_fails ω = false →
  ∃ tr σ1 tr1,
    notify_one ω a σ = Ret tt (with_trace (trace σ ++ tr) σ) ∧
    signalled tr = [c] ∧
    run_env_op (other_unregisters c) σ = Ret tt σ1 ∧
    notify_one ω a σ1 = Ret tt (with_trace (trace σ1 ++ tr1) σ1) ∧
    (c ∉ signalled tr1) ∧
    ((∀ ca, ca ∈ B → ca.2 ≠ a) → signalled tr1 = []) ∧
    (∀ B1 c' B2, B = B1 ++ (c', a) :: B2 → (∀ ca, ca ∈ B1 → ca.2 ≠ a) →
                 signalled tr1 = [c']).
Proof.
  intros Hinv HL HA Hlf.
  destruct (table_inv_dll _ _ _ _ _ Hinv HL) as (bk & Hbk & Hd).
  pose proof (dll_NoDup _ _ _ _ Hd) as Hnd.
  rewrite fmap_app, fmap_cons in Hnd. simpl in Hnd.
  apply NoDup_app in Hnd as (_ & HcA & [HcB _]%NoDup_cons).
  assert (c ∉ A.*1) as HA' by (intros Hin; apply (HcA c Hin); by left).
  assert (c ∈ (A ++ (c, a) :: B).*1) as Hc.
  { rewrite fmap_app. apply elem_of_app. right. by left. }
  destruct (run_returns (run_env_op (other_unregisters c)) σ
              (λ _ σ1, table_inv None σ1
                         (filter (λ ca, ca.1 ≠ c) <$> Ls)))
    as ([] & σ1 & Hrun & Hinv1).
  { apply (run_env_op_inv None (other_unregisters c) [] σ Ls); [done| |done].
    simpl. split; [|done]. apply elem_of_dom. by eapply dll_live. }
  assert ((filter (λ ca, ca.1 ≠ c) <$> Ls) !! get_bucket_for a
          = Some (A ++ B)) as HL1.
  { rewrite list_lookup_fmap, HL. simpl. f_equal.
    rewrite filter_app, filter_cons_False by (simpl; tauto).
    by rewrite !filter_fst_ne_id. }
  exists (one_events a (A ++ (c, a) :: B)), σ1, (one_events a (A ++ B)).
  split; [by eapply notify_one_returns|].
  split; [by apply one_events_first_match|]. split; [done|].
  split; [by eapply notify_one_returns|].
  rewrite one_events_app_no_match by done.
  split; [|split].
  - intros Hin%one_events_signalled. apply HcB.
    apply list_elem_of_fmap. by exists (c, a).
  - intros HB. by apply one_events_no_match.
  - intros B1 c' B2 -> HB1. by apply one_events_first_match.
Qed.

(** X10.  No wake-up is lost: a context registered for [a] and not yet
    unregistered is signalled by every [notify_all] on [a], whatever the
    other threads did to the table since the registration. *)
Theorem sleeper_is_signalled_by_notify_all ω σ Ls a c ops :
  table_inv None σ Ls → ctxs σ !! c = None →
  env_ok (Some c) ({[c]} ∪ dom (ctxs σ)) ops → lock_fails ω = false →
  ∃ σ1 tr,
    interfere (other_registers c a :: ops) σ = Ret tt σ1 ∧
    notify_all ω a σ1 = Ret tt (with_trace (trace σ1 ++ tr) σ1) ∧
    c ∈ signalled tr.
Proof.
  intros Hinv Hc Hok Hlf.
  destruct (table_inv_lookup _ _ _ _ Hinv (get_bucket_for_lt a))
    as (bk & L & Hbk & HL & _).
  destruct (run_returns (interfere (other_registers c a :: ops)) σ
              (λ _ σ1, table_inv None σ1
                         (abs_run (other_registers c a :: ops) Ls)))
    as ([] & σ1 & Hrun & Hinv1).
  { apply (run_interfere (Some c) _ _ Ls); [done| |done].
    simpl. split; [by apply not_elem_of_dom|done]. }
  destruct (abs_run_keeps c a ops ({[c]} ∪ dom (ctxs σ))
              (alter (cons (c, a)) (get_bucket_for a) Ls)
              (get_bucket_for a) ((c, a) :: L) Hok)
    as (L1 & HL1 & Hin1).
  { apply elem_of_union. left. by apply elem_of_singleton. }
  { by rewrite list_lookup_alter_eq, HL. }
  { by left. }
  exists σ1, (all_events a L1). split; [done|].
  split; [by eapply notify_all_returns|].
  destruct (all_events_spec a L1) as [-> _].
  apply list_elem_of_fmap. exists (c, a). split; [done|].
  by apply list_elem_of_filter.
Qed.

(** X11.  A notify is not remembered either: a [notify_all] that comes
    before the registration of a waiter does not signal it, and the [wait]
    that follows - the bytes being equal - sleeps all the same. *)
Theorem notify_before_wait_is_not_remembered ω' ω σ Ls a cmp n :
  table_inv None σ Ls → ctxs σ !! context_at ω = None →
  lock_fails ω = false → cv_ctor_fails ω = false →
  n ≤ length cmp → load σ a n = take n cmp →
  env_ok (Some (context_at ω)) ({[context_at ω]} ∪ dom (ctxs σ))
    (interference ω) →
  lock_fails ω' = false →
  ∃ σ' tr,
    (notify_all ω' a;; wait ω a cmp n) σ = Ret tt σ' ∧
    (context_at ω ∉ signalled tr) ∧
    trace σ' = trace σ ++ tr ++
      [ev_memcmp a n; ev_cv_wait (context_at ω) (woken_by ω)].
Proof.
  intros Hinv Hc Hlf Hcf Hn Hsame Hok Hlf'.
  destruct (table_inv_lookup _ _ _ _ Hinv (get_bucket_for_lt a))
    as (bk & L & Hbk & HL & _ & Hd).
  destruct (wait_sleeps ω (with_trace (trace σ ++ all_events a L) σ) Ls a cmp n)
    as (σ' & Hw & _ & Htr & _); try done.
  { by apply table_inv_with_trace. }
  exists σ', (all_events a L). split; [|split].
  - unfold mbind, M_bind, bind.
    by rewrite (notify_all_returns ω' σ Ls a L).
  - destruct (all_events_spec a L) as [-> _].
    intros ([c0 a0] & Heq & [_ Hin]%list_elem_of_filter)%list_elem_of_fmap.
    simpl in Heq. subst c0.
    destruct (dll_lookup _ _ _ _ _ _ Hd Hin) as (? & ? & _). congruence.
  - rewrite Htr. simpl. by rewrite <- app_assoc.
Qed.

(** X12.  A call that slept leaves no mark on the table: when it returns,
    the bucket lists are the ones the steps of the other threads alone
    produce from the lists before the call - also when contexts were linked
    in front of and behind its own in the meantime. *)
Theorem wait_leaves_lists_to_the_others ω σ Ls a cmp n ms :
  table_inv None σ Ls → ctxs σ !! context_at ω = None →
  lock_fails ω = false → cv_ctor_fails ω = false →
  n ≤ length cmp → load σ a n = take n cmp →
  env_ok (Some (context_at ω)) ({[context_at ω]} ∪ dom (ctxs σ))
    (interference ω) →
  (∃ σ', wait ω a cmp n σ = Ret tt σ' ∧
         table_inv None σ' (abs_run (interference ω) Ls)) ∧
  (∃ σ', wait_for ω a cmp n ms σ = ends_as (timed_woken_by ω) σ' ∧
         table_inv None σ' (abs_run (interference ω) Ls)).
Proof.
  intros Hinv Hc Hlf Hcf Hn Hsame Hok.
  rewrite <- (lists_after_wait_transparent ω σ Ls a) by done. split.
  - destruct (wait_sleeps ω σ Ls a cmp n) as (σ' & Hw & Hinv' & _); try done.
    by exists σ'.
  - destruct (wait_for_sleeps ω σ Ls a cmp n ms) as (σ' & Hw & Hinv' & _);
      try done.
    by exists σ'.
Qed.

(** X13.  The notify functions go by the address alone: with any other
    bytes in the watched words they examine and signal the same contexts,
    so a notify reaches the waiters also when the value has not changed. *)
Theorem notify_ignores_the_value ω σ Ls a m :
  table_inv None σ Ls → lock_fails ω = false →
  ∃ tr1 tra,
    notify_one ω a σ = Ret tt (with_trace (trace σ ++ tr1) σ) ∧
    notify_one ω a (with_mem m σ)
      = Ret tt (with_trace (trace σ ++ tr1) (with_mem m σ)) ∧
    notify_all ω a σ = Ret tt (with_trace (trace σ ++ tra) σ) ∧
    notify_all ω a (with_mem m σ)
      = Ret tt (with_trace (trace σ ++ tra) (with_mem m σ)).
Proof.
  intros Hinv Hlf.
  destruct (table_inv_lookup _ _ _ _ Hinv (get_bucket_for_lt a))
    as (bk & L & Hbk & HL & _).
  exists (one_events a L), (all_events a L).
  pose proof (table_inv_with_mem _ _ _ m Hinv) as Hinv'.
  split; [by eapply notify_one_returns|].
  split; [exact (notify_one_returns ω (with_mem m σ) Ls a L Hinv' HL Hlf)|].
  split; [by eapply notify_all_returns|].
  exact (notify_all_returns ω (with_mem m σ) Ls a L Hinv' HL Hlf).
Qed.

End fallback_extras.

(** ** The further properties on concrete tables *)

Lemma wait_on_address_infinite_witness :
  AddressWait.atomic_wait_for_native 0 0 (-1)
    = AddressWait.atomic_wait_native 0 0.
Proof. apply (proj2 (wait_on_address_infinite 0 0 (-1))). reflexivity. Defined.

Lemma bucket_lookup_in_range_witness :
  ∃ bk, get_bucket (get_bucket_for (P := demo_platform) 100) empty_state
          = Ret bk empty_state.
Proof.
  destruct (bucket_lookup_in_range (P := demo_platform) 100 empty_state)
    as [_ Hbk].
  - apply length_replicate.
  - exact Hbk.
Defined.

Lemma push_front_links_at_front_witness :
  ∃ σ', push_front_wait_ctx 100 5 populated_unlinked_state = Ret tt σ' ∧
        m_wait_table σ' !! 100 = Some (mk_bucket false (Some 5%positive)) ∧
        dll (ctxs σ') None (Some 5%positive)
          [(5%positive, 100%N); (9%positive, 100%N); (8%positive, 357%N);
           (7%positive, 100%N)] ∧
        ctxs σ' !! 8%positive = ctxs populated_unlinked_state !! 8%positive.
Proof.
  destruct (push_front_links_at_front populated_unlinked_state 100
              (mk_bucket false (Some 9%positive))
              [(9%positive, 100%N); (8%positive, 357%N); (7%positive, 100%N)]
              5%positive (mk_wait_context 100 None None))
    as (σ' & Hrun & Hhd & _ & Hd & Hother).
  - vm_compute. reflexivity.
  - exact populated_unlinked_dll.
  - vm_compute. reflexivity.
  - reflexivity.
  - reflexivity.
  - apply (bool_decide_unpack _). vm_compute. exact I.
  - exists σ'. split; [exact Hrun|]. split; [exact Hhd|].
    split; [exact Hd|]. apply Hother; discriminate.
Defined.

Lemma remove_unlinks_anywhere_witness :
  ∃ σ' bk', remove_wait_ctx 100 8 populated_state = Ret tt σ' ∧
            m_wait_table σ' !! 100 = Some bk' ∧
            dll (ctxs σ') None (head bk')
              [(9%positive, 100%N); (7%positive, 100%N)].
Proof.
  destruct (table_inv_dll (P := demo_platform) None populated_state
              populated_lists 100
              [(9%positive, 100%N); (8%positive, 357%N); (7%positive, 100%N)]
              populated_table_inv) as (bk & Hbk & Hd).
  { vm_compute. reflexivity. }
  destruct (remove_unlinks_anywhere populated_state 100 bk
              [(9%positive, 100%N); (8%positive, 357%N); (7%positive, 100%N)]
              8%positive Hbk Hd)
    as (σ' & bk' & Hrun & Hbk' & _ & _ & _ & Hd' & _).
  - apply (bool_decide_unpack _). vm_compute. exact I.
  - exists σ', bk'. split; [exact Hrun|]. split; [exact Hbk'|exact Hd'].
Defined.

Lemma notify_one_is_first_of_notify_all_witness :
  ∃ tr1 tra,
    notify_one (P := demo_platform) calm 100 populated_state
      = Ret tt (with_trace (trace populated_state ++ tr1) populated_state) ∧
    notify_all (P := demo_platform) calm 100 populated_state
      = Ret tt (with_trace (trace populated_state ++ tra) populated_state) ∧
    signalled tr1 = take 1 (signalled tra).
Proof.
  destruct (notify_one_is_first_of_notify_all (P := demo_platform)
              calm populated_state populated_lists 100)
    as (tr1 & tra & H1 & Ha & Hs & _).
  - apply populated_table_inv.
  - reflexivity.
  - exists tr1, tra. split; [exact H1|]. split; [exact Ha|exact Hs].
Defined.

Lemma notify_one_twice_signals_same_witness :
  ∃ tr,
    (notify_one (P := demo_platform) calm 100;;
     notify_one (P := demo_platform) calm 100) populated_state
      = Ret tt (with_trace (trace populated_state ++ tr ++ tr) populated_state).
Proof.
  destruct (notify_one_twice_signals_same (P := demo_platform)
              calm populated_state populated_lists 100) as (tr & _ & H2).
  - apply populated_table_inv.
  - reflexivity.
  - exists tr. exact H2.
Defined.

Lemma notify_one_after_leave_signals_next_witness :
  ∃ tr σ1 tr1,
    notify_one (P := demo_platform) calm 100 populated_state
      = Ret tt (with_trace (trace populated_state ++ tr) populated_state) ∧
    signalled tr = [9%positive] ∧
    run_env_op (P := demo_platform) (other_unregisters 9) populated_state
      = Ret tt σ1 ∧
    notify_one (P := demo_platform) calm 100 σ1
      = Ret tt (with_trace (trace σ1 ++ tr1) σ1) ∧
    signalled tr1 = [7%positive].
Proof.
  destruct (notify_one_after_leave_signals_next (P := demo_platform)
              calm populated_state populated_lists 100 [] 9%positive
              [(8%positive, 357%N); (7%positive, 100%N)])
    as (tr & σ1 & tr1 & H1 & Hs & Hleave & H2 & _ & _ & Hnext).
  - apply populated_table_inv.
  - vm_compute. reflexivity.
  - intros ca Hca. destruct (proj1 (elem_of_nil _) Hca).
  - reflexivity.
  - exists tr, σ1, tr1. split; [exact H1|]. split; [exact Hs|].
    split; [exact Hleave|]. split; [exact H2|].
    apply (Hnext [(8%positive, 357%N)] 7%positive []); [reflexivity|].
    intros ca Hca. apply list_elem_of_singleton in Hca. rewrite Hca.
    simpl. discriminate.
Defined.

Lemma sleeper_is_signalled_by_notify_all_witness :
  ∃ σ1 tr,
    interfere (P := demo_platform)
      (other_registers 5 100 :: interference demo_env) empty_state
      = Ret tt σ1 ∧
    notify_all (P := demo_platform) calm 100 σ1
      = Ret tt (with_trace (trace σ1 ++ tr) σ1) ∧
    5%positive ∈ signalled tr.
Proof.
  apply (sleeper_is_signalled_by_notify_all (P := demo_platform)
           calm empty_state empty_lists 100 5%positive (interference demo_env)).
  - apply empty_table_inv.
  - reflexivity.
  - simpl. repeat split; try done; by_computation.
  - reflexivity.
Defined.

Lemma notify_before_wait_is_not_remembered_witness :
  ∃ σ' tr,
    (notify_all (P := demo_platform) calm 100;;
     wait (P := demo_platform) demo_env 100 [0; 0; 0; 0]%Z 4) empty_state
      = Ret tt σ' ∧
    (context_at demo_env ∉ signalled tr) ∧
    trace σ' = trace empty_state ++ tr ++
      [ev_memcmp 100 4; ev_cv_wait (context_at demo_env) (woken_by demo_env)].
Proof.
  apply (notify_before_wait_is_not_remembered (P := demo_platform)
           calm demo_env empty_state empty_lists 100 [0; 0; 0; 0]%Z 4).
  - apply empty_table_inv.
  - reflexivity.
  - reflexivity.
  - reflexivity.
  - simpl. lia.
  - vm_compute. reflexivity.
  - simpl. repeat split; try done; by_computation.
  - reflexivity.
Defined.

Lemma wait_leaves_lists_to_the_others_witness :
  ∃ σ', wait (P := demo_platform) demo_env 100 [0; 0; 0; 0]%Z 4 empty_state
          = Ret tt σ' ∧
        table_inv (P := demo_platform) None σ'
          (abs_run (P := demo_platform) (interference demo_env) empty_lists).
Proof.
  destruct (wait_leaves_lists_to_the_others (P := demo_platform)
              demo_env empty_state empty_lists 100 [0; 0; 0; 0]%Z 4 50%Z)
    as [Hwait _].
  - apply empty_table_inv.
  - reflexivity.
  - reflexivity.
  - reflexivity.
  - simpl. lia.
  - vm_compute. reflexivity.
  - simpl. repeat split; try done; by_computation.
  - exact Hwait.
Defined.

Lemma notify_ignores_the_value_witness :
  ∃ tr1,
    notify_one (P := demo_platform) calm 100 populated_state
      = Ret tt (with_trace (trace populated_state ++ tr1) populated_state) ∧
    notify_one (P := demo_platform) calm 100
      (with_mem (λ _, 1%Z) populated_state)
      = Ret tt (with_trace (trace populated_state ++ tr1)
                  (with_mem (λ _, 1%Z) populated_state)).
Proof.
  destruct (notify_ignores_the_value (P := demo_platform)
              calm populated_state populated_lists 100 (λ _, 1%Z))
    as (tr1 & tra & H1 & H1' & _).
  - apply populated_table_inv.
  - reflexivity.
  - exists tr1. split; [exact H1|exact H1'].
Defined.
